(** * Verification of the autocomplete trie in [src/trie.py]

    The Python classes [TrieNode] and [Trie] are embedded as pure
    functions over an immutable tree.  A node's [children] dictionary is a
    finite map from characters to nodes (only membership, lookup, insertion,
    deletion, emptiness and the sorted key set are ever used, so the
    dictionary's insertion order is not observable).  Python integers are
    unbounded and are modelled by [Z].  Weights are only ever stored,
    negated and compared; the finite floats are dyadic rationals and are
    modelled by [Q] with its exact order (NaN and the infinities are left
    out of the model).  Words are strings of 8-bit characters compared by
    code, as Python compares strings.  The recursive helpers ([_remove],
    [collect], [get_height]) are total here: the interpreter's bound on the
    recursion depth is not part of the model. *)

From Stdlib Require Import Ascii String ZArith QArith Lia Sorted Permutation.
From stdpp Require Import gmap strings list fin_maps.

Local Close Scope Q_scope.
Local Open Scope Z_scope.
Set Warnings "-register-all".

(** ** Data model *)

(** [class TrieNode]: [children], [is_word], [freq]. *)
Inductive TrieNode : Type :=
  mkNode { children : gmap ascii TrieNode; is_word : bool; freq : Q }.

(** [TrieNode.__init__] *)
Definition TrieNode_init : TrieNode := mkNode ∅ false 0%Q.

(** [class Trie]: [root], [_words], [_nodes]. *)
Record Trie : Type := mkTrie { root : TrieNode; _words : Z; _nodes : Z }.

(** [Trie.__init__] *)
Definition Trie_init : Trie := mkTrie TrieNode_init 0 1.

(** [not node.children] *)
Definition no_children (node : TrieNode) : bool :=
  bool_decide (children node = ∅).

(** ** The walk along a symbol path

    [contains] and [complete] both start with the same loop
    [for char in word: if char not in node.children: return ...;
     node = node.children[char]].  [descend] is that loop; [None] is the
    early return. *)
Fixpoint descend (node : TrieNode) (word : string) : option TrieNode :=
  match word with
  | EmptyString => Some node
  | String char rest =>
      match children node !! char with
      | None => None
      | Some child => descend child rest
      end
  end.

(** ** insert

    The loop of [Trie.insert] walks down from the root, creating the missing
    children and bumping [_nodes]; at the end of the word it bumps [_words]
    if the node was not a word, then sets [is_word] and [freq].  The nodes
    are mutated in place in Python; here the path is rebuilt.  The pair
    carried along is [(_words, _nodes)]. *)
Fixpoint insert_loop (node : TrieNode) (word : string) (fr : Q) (cnt : Z * Z)
  : TrieNode * (Z * Z) :=
  match word with
  | EmptyString =>
      (mkNode (children node) true fr,
       if is_word node then cnt else (fst cnt + 1, snd cnt))
  | String char rest =>
      let '(child, cnt1) :=
        match children node !! char with
        | None => (TrieNode_init, (fst cnt, snd cnt + 1))
        | Some child => (child, cnt)
        end in
      let '(child', cnt2) := insert_loop child rest fr cnt1 in
      (mkNode (<[char := child']> (children node)) (is_word node) (freq node),
       cnt2)
  end.

Definition insert (t : Trie) (word : string) (fr : Q) : Trie :=
  let '(r, (w, n)) := insert_loop (root t) word fr (_words t, _nodes t) in
  mkTrie r w n.

(** ** remove

    The inner function [_remove(node, word, index)]; the suffix
    [word[index:]] is the argument [word] here.  The result is the returned
    flag, the node after the in-place updates, and [(_words, _nodes)]. *)
Fixpoint _remove (node : TrieNode) (word : string) (cnt : Z * Z)
  : bool * TrieNode * (Z * Z) :=
  match word with
  | EmptyString =>
      if is_word node then
        (no_children node,
         mkNode (children node) false (freq node),
         (fst cnt - 1, snd cnt))
      else (false, node, cnt)
  | String char rest =>
      match children node !! char with
      | None => (false, node, cnt)
      | Some child =>
          let '(should_delete, child', cnt1) := _remove child rest cnt in
          if should_delete then
            let node' :=
              mkNode (delete char (children node)) (is_word node) (freq node) in
            (no_children node' && negb (is_word node'), node',
             (fst cnt1, snd cnt1 - 1))
          else
            (false,
             mkNode (<[char := child']> (children node))
                    (is_word node) (freq node),
             cnt1)
      end
  end.

(** [Trie.remove] returns what [_remove] returns at the root. *)
Definition remove (t : Trie) (word : string) : bool * Trie :=
  let '(res, r, (w, n)) := _remove (root t) word (_words t, _nodes t) in
  (res, mkTrie r w n).

(** ** contains *)
Definition contains (t : Trie) (word : string) : bool :=
  match descend (root t) word with
  | None => false
  | Some node => is_word node
  end.

(** ** complete *)

(** [sorted(...)] on characters, as a stable insertion sort on keyed
    entries; the keys of a dictionary are distinct. *)
Fixpoint sorted_insert {B : Type} (x : ascii * B) (l : list (ascii * B))
  : list (ascii * B) :=
  match l with
  | [] => [x]
  | y :: l' =>
      if Ascii.ltb (fst y) (fst x) then y :: sorted_insert x l'
      else x :: y :: l'
  end.

Definition sorted_by_key {B : Type} (l : list (ascii * B)) : list (ascii * B) :=
  foldr sorted_insert [] l.

(** The inner function [collect(node, path)] of [complete].  It returns the
    entries it appends to [candidates]: the node's own entry, then the
    entries of the children in ascending order of their key. *)
Fixpoint collect (node : TrieNode) (path : string) : list (Q * string) :=
  match node with
  | mkNode ch w fr =>
      (if w then [(fr, path)] else []) ++
      concat (map snd (sorted_by_key
        (map_fold (fun char child acc =>
                     (char, collect child (path +:+ String char "")) :: acc)
                  [] ch)))
  end.

(** The sort key [(-x[0], x[1])] and Python's tuple comparison [<]: the first
    components are compared with [==]; when they differ they decide, otherwise
    the second components do. *)
Definition sort_key (x : Q * string) : Q * string := (Qopp (fst x), snd x).

Definition Qltb (a b : Q) : bool := negb (Qle_bool b a).

Definition key_lt (a b : Q * string) : bool :=
  if Qeq_bool (fst a) (fst b) then String.ltb (snd a) (snd b)
  else Qltb (fst a) (fst b).

(** [list.sort(key=...)] is a stable sort; so is this insertion sort. *)
Fixpoint sort_insert (x : Q * string) (l : list (Q * string))
  : list (Q * string) :=
  match l with
  | [] => [x]
  | y :: l' =>
      if key_lt (sort_key y) (sort_key x) then y :: sort_insert x l'
      else x :: y :: l'
  end.

Definition list_sort (l : list (Q * string)) : list (Q * string) :=
  foldr sort_insert [] l.

(** The slice [l[:k]]: a negative [k] counts from the end. *)
Definition slice_to {A : Type} (l : list A) (k : Z) : list A :=
  if 0 <=? k then firstn (Z.to_nat k) l
  else firstn (Z.to_nat (Z.max 0 (Z.of_nat (length l) + k))) l.

Definition complete (t : Trie) (prefix : string) (k : Z) : list string :=
  match descend (root t) prefix with
  | None => []
  | Some node => map snd (slice_to (list_sort (collect node prefix)) k)
  end.

(** ** items *)
Definition items (t : Trie) : list (string * Q) :=
  map (fun x => (snd x, fst x)) (collect (root t) "").

(** ** stats *)

(** [max(...)] over a generator: [None] stands for the empty sequence. *)
Definition max_step (h : Z) (acc : option Z) : option Z :=
  match acc with
  | None => Some h
  | Some m => Some (Z.max h m)
  end.

Fixpoint get_height (node : TrieNode) : Z :=
  match node with
  | mkNode ch _ _ =>
      if bool_decide (ch = ∅) then 0
      else 1 + default 0 (map_fold (fun _ child acc =>
                                      max_step (get_height child) acc) None ch)
  end.

Definition stats (t : Trie) : Z * Z * Z :=
  (_words t, get_height (root t), _nodes t).

(** ** Notions used by the specification *)

(** Whether a word is stored below a node ([contains], from any node). *)
Definition stored (node : TrieNode) (word : string) : bool :=
  match descend node word with
  | Some n => is_word n
  | None => false
  end.

(** Entry of a word below a node: its weight when it is stored. *)
Definition entry (node : TrieNode) (word : string) : option Q :=
  match descend node word with
  | Some n => if is_word n then Some (freq n) else None
  | None => None
  end.

(** A word is stored in a trie when its path exists and ends in a word
    node; its stored weight is that node's [freq]. *)
Definition weight_of (t : Trie) (word : string) : option Q :=
  entry (root t) word.

(** Number of nodes of a subtree, the subtree's root included. *)
Fixpoint node_total (node : TrieNode) : nat :=
  match node with
  | mkNode ch _ _ =>
      S (map_fold (fun _ child acc => (node_total child + acc)%nat) 0%nat ch)
  end.

(** Number of word nodes of a subtree. *)
Fixpoint word_total (node : TrieNode) : nat :=
  match node with
  | mkNode ch w _ =>
      ((if w then 1 else 0) +
       map_fold (fun _ child acc => (word_total child + acc)%nat) 0%nat ch)%nat
  end.

(** The sum that [node_total] and [word_total] take over the children. *)
Definition sum_over (g : TrieNode -> nat) (ch : gmap ascii TrieNode) : nat :=
  map_fold (fun _ child acc => (g child + acc)%nat) 0%nat ch.

(** A node is live when it is a word or has a child; a subtree is pruned
    when every node strictly below its root is live. *)
Definition live (node : TrieNode) : Prop :=
  is_word node = true \/ children node <> ∅.

Definition pruned (node : TrieNode) : Prop :=
  forall path n, path <> EmptyString -> descend node path = Some n -> live n.

(** States reachable from the empty trie by the public mutators. *)
Inductive reachable : Trie -> Prop :=
  | reachable_init : reachable Trie_init
  | reachable_insert t word fr :
      reachable t -> reachable (insert t word fr)
  | reachable_remove t word :
      reachable t -> reachable (snd (remove t word)).

(** The maximum that [get_height] takes over the children, and the same
    over a list of children. *)
Definition max_over (ch : gmap ascii TrieNode) : option Z :=
  map_fold (fun _ child acc => max_step (get_height child) acc) None ch.

Definition max_list (l : list (ascii * TrieNode)) : option Z :=
  foldr (fun x acc => max_step (get_height (snd x)) acc) None l.

(** The keyed results of [collect] on the children of a node. *)
Definition child_entries (node : TrieNode) (path : string)
  : list (ascii * list (Q * string)) :=
  map_fold (fun char child acc =>
              (char, collect child (path +:+ String char "")) :: acc)
           [] (children node).

(** The ranking of [complete]: heavier first, equal weights in ascending
    order of the words. *)
Definition ranked_before (a b : Q * string) : Prop :=
  (fst b < fst a)%Q \/ ((fst a == fst b)%Q /\ String.ltb (snd a) (snd b) = true).

(** The trie of the ranking example: cat 5.0, car 5.0, can 3.0. *)
Definition cat_car_can : Trie :=
  insert (insert (insert Trie_init "cat" 5%Q) "car" 5%Q) "can" 3%Q.

Global Arguments node_total : simpl never.
Global Arguments word_total : simpl never.
Global Arguments get_height : simpl never.
Global Arguments collect : simpl never.

(** The tree that the loop of [insert] leaves, without the counters. *)
Definition insert_node (node : TrieNode) (word : string) (fr : Q) : TrieNode :=
  fst (insert_loop node word fr (0, 0)).

(** Ascending order of the words, as Python compares strings. *)
Definition word_lt (a b : string) : Prop := String.ltb a b = true.

(** Ascending order of keyed entries by their key, and of candidates by
    their word. *)
Definition key_asc {B : Type} (x y : ascii * B) : Prop :=
  Ascii.ltb (fst x) (fst y) = true.

Definition entry_lt (x y : Q * string) : Prop := word_lt (snd x) (snd y).

(** Number of symbols of a word that lie beyond its longest path in the
    tree: the children that the loop of [insert] has to create. *)
Fixpoint missing (node : TrieNode) (word : string) : nat :=
  match word with
  | EmptyString => 0%nat
  | String char rest =>
      match children node !! char with
      | Some child => missing child rest
      | None => String.length word
      end
  end.

(** Ascending order of the pairs of [items] by their word. *)
Definition item_lt (x y : string * Q) : Prop := word_lt (fst x) (fst y).

(** ** Quick checks on concrete tries *)

Example complete_ca_2 : complete cat_car_can "ca" 2 = ["car"; "cat"].
Proof. vm_compute. reflexivity. Qed.

Example stats_cat_car_can : stats cat_car_can = (3, 3, 6).
Proof. vm_compute. reflexivity. Qed.

Example items_cat_car_can :
  items cat_car_can = [("can", 3%Q); ("car", 5%Q); ("cat", 5%Q)].
Proof. vm_compute. reflexivity. Qed.

Example remove_cat_flag : fst (remove cat_car_can "cat") = false.
Proof. vm_compute. reflexivity. Qed.

Example complete_negative : complete cat_car_can "ca" (-1) = ["car"; "cat"].
Proof. vm_compute. reflexivity. Qed.

(** ** Lemmas on the walk and on insertion *)

Lemma descend_app node p s :
  descend node (p +:+ s) =
  match descend node p with Some n => descend n s | None => None end.
Proof.
  revert node. induction p as [|c p IH]; intros node; simpl; [done|].
  destruct (children node !! c); auto.
Qed.

Lemma insert_loop_node node word fr cnt cnt' :
  fst (insert_loop node word fr cnt) = fst (insert_loop node word fr cnt').
Proof.
  revert node cnt cnt'. induction word as [|c w IH]; intros node cnt cnt'; simpl; [done|].
  destruct (children node !! c) as [child|].
  - specialize (IH child cnt cnt').
    destruct (insert_loop child w fr cnt), (insert_loop child w fr cnt'); simpl in *.
    by subst.
  - specialize (IH TrieNode_init (cnt.1, cnt.2 + 1) (cnt'.1, cnt'.2 + 1)).
    destruct (insert_loop TrieNode_init w fr (cnt.1, cnt.2 + 1)),
      (insert_loop TrieNode_init w fr (cnt'.1, cnt'.2 + 1)); simpl in *.
    by subst.
Qed.

(** The node reached by the inserted word is a word node carrying the new
    weight. *)
Lemma descend_insert_loop_same node word fr cnt :
  exists n, descend (fst (insert_loop node word fr cnt)) word = Some n /\
            is_word n = true /\ freq n = fr.
Proof.
  revert node cnt. induction word as [|c w IH]; intros node cnt; simpl.
  - eexists; split; [done|]. done.
  - destruct (children node !! c) as [child|].
    + destruct (IH child cnt) as (n & Hn & Hw & Hf).
      destruct (insert_loop child w fr cnt) as [child' cnt2]; simpl in *.
      rewrite lookup_insert_eq. eauto.
    + destruct (IH TrieNode_init (cnt.1, cnt.2 + 1)) as (n & Hn & Hw & Hf).
      destruct (insert_loop TrieNode_init w fr (cnt.1, cnt.2 + 1)) as [child' cnt2]; simpl in *.
      rewrite lookup_insert_eq. eauto.
Qed.

Lemma stored_init word : stored TrieNode_init word = false.
Proof. destruct word; done. Qed.

(** The word counter moves by one exactly when the word was not stored; the
    node counter never decreases. *)
Lemma insert_loop_words node word fr cnt :
  fst (snd (insert_loop node word fr cnt)) =
  fst cnt + (if stored node word then 0 else 1).
Proof.
  revert node cnt. induction word as [|c w IH]; intros node cnt; simpl.
  - unfold stored; simpl. destruct (is_word node); simpl; lia.
  - unfold stored; simpl. destruct (children node !! c) as [child|].
    + specialize (IH child cnt).
      destruct (insert_loop child w fr cnt) as [child' cnt2]; simpl in *.
      by rewrite IH.
    + specialize (IH TrieNode_init (cnt.1, cnt.2 + 1)).
      destruct (insert_loop TrieNode_init w fr (cnt.1, cnt.2 + 1)) as [child' cnt2];
        simpl in *.
      by rewrite IH, stored_init.
Qed.

Lemma contains_stored t word : contains t word = stored (root t) word.
Proof. done. Qed.

Lemma insert_root t word fr :
  root (insert t word fr) =
  fst (insert_loop (root t) word fr (_words t, _nodes t)).
Proof.
  unfold insert. by destruct (insert_loop _ _ _ _) as [r [w n]].
Qed.

Lemma insert_words t word fr :
  _words (insert t word fr) =
  fst (snd (insert_loop (root t) word fr (_words t, _nodes t))).
Proof.
  unfold insert. by destruct (insert_loop _ _ _ _) as [r [w n]].
Qed.

Lemma insert_nodes t word fr :
  _nodes (insert t word fr) =
  snd (snd (insert_loop (root t) word fr (_words t, _nodes t))).
Proof.
  unfold insert. by destruct (insert_loop _ _ _ _) as [r [w n]].
Qed.

(** ** Sums over the children of a node *)

Lemma sum_over_empty g : sum_over g ∅ = 0%nat.
Proof. apply map_fold_empty. Qed.

Lemma sum_over_delete g ch c x :
  ch !! c = Some x -> sum_over g ch = (g x + sum_over g (delete c ch))%nat.
Proof.
  intros H. unfold sum_over.
  apply (map_fold_delete_L (fun _ child acc => (g child + acc)%nat)); [|done].
  intros; lia.
Qed.

Lemma sum_over_insert g ch c x :
  sum_over g (<[c := x]> ch) = (g x + sum_over g (delete c ch))%nat.
Proof.
  rewrite (sum_over_delete g (<[c := x]> ch) c x) by apply lookup_insert_eq.
  by rewrite delete_insert_eq.
Qed.

Lemma sum_over_insert_fresh g ch c x :
  ch !! c = None -> sum_over g (<[c := x]> ch) = (g x + sum_over g ch)%nat.
Proof. intros H. rewrite sum_over_insert. by rewrite delete_id. Qed.

Lemma node_total_eq node :
  node_total node = S (sum_over node_total (children node)).
Proof. by destruct node. Qed.

Lemma word_total_eq node :
  word_total node =
  ((if is_word node then 1 else 0) + sum_over word_total (children node))%nat.
Proof. by destruct node. Qed.

Lemma node_eta node : mkNode (children node) (is_word node) (freq node) = node.
Proof. by destruct node. Qed.

(** ** Lemmas on removal *)

(** A word that is not stored: nothing is returned but [False], nothing
    changes. *)
Lemma _remove_absent node word cnt :
  stored node word = false -> _remove node word cnt = (false, node, cnt).
Proof.
  revert node. induction word as [|c w IH]; intros node; unfold stored; simpl.
  - by intros ->.
  - destruct (children node !! c) as [child|] eqn:Hc; [|done].
    intros H. rewrite (IH child) by exact H.
    by rewrite insert_id, node_eta.
Qed.

(** The flag [True] is only returned for a node left without children and
    without the word mark. *)
Lemma _remove_flag_dead node word cnt :
  fst (fst (_remove node word cnt)) = true ->
  children (snd (fst (_remove node word cnt))) = ∅ /\
  is_word (snd (fst (_remove node word cnt))) = false.
Proof.
  destruct word as [|c w]; simpl.
  - destruct (is_word node) eqn:Hw; simpl; [|done].
    unfold no_children. intros H%bool_decide_eq_true. done.
  - destruct (children node !! c) as [child|]; [|done].
    destruct (_remove child w cnt) as [[sd child'] cnt1].
    destruct sd; simpl; [|done].
    unfold no_children; simpl.
    intros [H1%bool_decide_eq_true H2%negb_true_iff]%andb_true_iff. done.
Qed.

(** The flag [True] is only returned when the word was stored. *)
Lemma _remove_flag_stored node word cnt :
  fst (fst (_remove node word cnt)) = true -> stored node word = true.
Proof.
  intros H. destruct (stored node word) eqn:Hs; [done|].
  by rewrite _remove_absent in H.
Qed.

(** After removal the word is not stored. *)
Lemma _remove_gone node word cnt :
  stored (snd (fst (_remove node word cnt))) word = false.
Proof.
  revert node. induction word as [|c w IH]; intros node; simpl.
  - destruct (is_word node) eqn:Hw; unfold stored; simpl; [done|].
    by rewrite Hw.
  - destruct (children node !! c) as [child|] eqn:Hc.
    + specialize (IH child).
      destruct (_remove child w cnt) as [[sd child'] cnt1]; simpl in *.
      destruct sd; unfold stored; simpl.
      * by rewrite lookup_delete_eq.
      * by rewrite lookup_insert_eq.
    + unfold stored; simpl. by rewrite Hc.
Qed.

Lemma entry_dead node word :
  children node = ∅ -> is_word node = false -> entry node word = None.
Proof.
  intros Hc Hw. unfold entry. destruct word as [|c w]; simpl.
  - by rewrite Hw.
  - by rewrite Hc, lookup_empty.
Qed.

(** Removal does not touch the entry of any other word. *)
Lemma _remove_other node word cnt other :
  other <> word ->
  entry (snd (fst (_remove node word cnt))) other = entry node other.
Proof.
  revert node other. induction word as [|c w IH]; intros node other Hne; simpl.
  - destruct (is_word node); [|done].
    destruct other as [|c' o]; [done|]. done.
  - destruct (children node !! c) as [child|] eqn:Hc; [|done].
    pose proof (IH child) as IHc.
    pose proof (_remove_flag_dead child w cnt) as Hdead.
    destruct (_remove child w cnt) as [[sd child'] cnt1]; simpl in *.
    destruct sd; simpl.
    + destruct other as [|c' o]; [done|].
      unfold entry; simpl.
      destruct (decide (c' = c)) as [->|Hcc].
      * rewrite lookup_delete_eq, Hc.
        assert (o <> w) as Ho by congruence.
        specialize (IHc o Ho). destruct Hdead as [Hd1 Hd2]; [done|].
        rewrite (entry_dead child' o Hd1 Hd2) in IHc. exact IHc.
      * by rewrite lookup_delete_ne.
    + destruct other as [|c' o]; [done|].
      unfold entry; simpl.
      destruct (decide (c' = c)) as [->|Hcc].
      * rewrite lookup_insert_eq, Hc.
        assert (o <> w) as Ho by congruence. exact (IHc o Ho).
      * by rewrite lookup_insert_ne.
Qed.

(** ** Counters against the tree *)

Lemma node_total_dead node : children node = ∅ -> node_total node = 1%nat.
Proof. intros H. by rewrite node_total_eq, H, sum_over_empty. Qed.

Lemma word_total_dead node :
  children node = ∅ -> is_word node = false -> word_total node = 0%nat.
Proof. intros H Hw. by rewrite word_total_eq, H, Hw, sum_over_empty. Qed.

(** What [insert_loop] adds to the counters is what it adds to the tree. *)
Lemma insert_loop_counts node word fr cnt :
  Z.of_nat (node_total (fst (insert_loop node word fr cnt))) -
    Z.of_nat (node_total node) = snd (snd (insert_loop node word fr cnt)) - snd cnt /\
  Z.of_nat (word_total (fst (insert_loop node word fr cnt))) -
    Z.of_nat (word_total node) = fst (snd (insert_loop node word fr cnt)) - fst cnt.
Proof.
  revert node cnt. induction word as [|c w IH]; intros node cnt; simpl.
  - rewrite !node_total_eq, !word_total_eq; simpl.
    destruct (is_word node); simpl; lia.
  - destruct (children node !! c) as [child|] eqn:Hc.
    + specialize (IH child cnt).
      destruct (insert_loop child w fr cnt) as [child' cnt2]; simpl in *.
      rewrite (node_total_eq (mkNode _ _ _)), (word_total_eq (mkNode _ _ _)); simpl.
      rewrite (node_total_eq node), (word_total_eq node).
      rewrite !sum_over_insert.
      rewrite (sum_over_delete node_total _ _ _ Hc),
        (sum_over_delete word_total _ _ _ Hc).
      lia.
    + specialize (IH TrieNode_init (cnt.1, cnt.2 + 1)).
      destruct (insert_loop TrieNode_init w fr (cnt.1, cnt.2 + 1)) as [child' cnt2];
        simpl in *.
      rewrite (node_total_eq (mkNode _ _ _)), (word_total_eq (mkNode _ _ _)); simpl.
      rewrite (node_total_eq node), (word_total_eq node).
      rewrite !sum_over_insert_fresh by done.
      change (node_total TrieNode_init) with 1%nat in IH.
      change (word_total TrieNode_init) with 0%nat in IH.
      lia.
Qed.

(** What [_remove] takes from the counters is what it takes from the tree:
    a pruned child is a single node. *)
Lemma _remove_counts node word cnt :
  Z.of_nat (node_total (snd (fst (_remove node word cnt)))) -
    Z.of_nat (node_total node) = snd (snd (_remove node word cnt)) - snd cnt /\
  Z.of_nat (word_total (snd (fst (_remove node word cnt)))) -
    Z.of_nat (word_total node) = fst (snd (_remove node word cnt)) - fst cnt.
Proof.
  revert node cnt. induction word as [|c w IH]; intros node cnt; simpl.
  - destruct (is_word node) eqn:Hw; simpl; [|lia].
    rewrite !node_total_eq, !word_total_eq; simpl. rewrite Hw. lia.
  - destruct (children node !! c) as [child|] eqn:Hc; simpl; [|lia].
    specialize (IH child cnt).
    pose proof (_remove_flag_dead child w cnt) as Hdead.
    destruct (_remove child w cnt) as [[sd child'] cnt1]; simpl in *.
    destruct sd; simpl.
    + destruct Hdead as [Hd1 Hd2]; [done|].
      rewrite (node_total_dead child' Hd1), (word_total_dead child' Hd1 Hd2) in IH.
      rewrite (node_total_eq (mkNode _ _ _)), (word_total_eq (mkNode _ _ _)); simpl.
      rewrite (node_total_eq node), (word_total_eq node).
      rewrite (sum_over_delete node_total _ _ _ Hc),
        (sum_over_delete word_total _ _ _ Hc).
      lia.
    + rewrite (node_total_eq (mkNode _ _ _)), (word_total_eq (mkNode _ _ _)); simpl.
      rewrite (node_total_eq node), (word_total_eq node).
      rewrite !sum_over_insert.
      rewrite (sum_over_delete node_total _ _ _ Hc),
        (sum_over_delete word_total _ _ _ Hc).
      lia.
Qed.

(** ** No dead node is left behind *)

Lemma pruned_init : pruned TrieNode_init.
Proof.
  intros [|c p] n Hp; [done|]. simpl. by rewrite lookup_empty.
Qed.

Lemma pruned_child node c child :
  pruned node -> children node !! c = Some child -> pruned child /\ live child.
Proof.
  intros Hpr Hc. split.
  - intros p n Hp Hd. apply (Hpr (String c p)); [done|]. simpl. by rewrite Hc.
  - apply (Hpr (String c EmptyString)); [done|]. simpl. by rewrite Hc.
Qed.

Lemma insert_loop_live node word fr cnt :
  live (fst (insert_loop node word fr cnt)).
Proof.
  destruct word as [|c w]; simpl.
  - by left.
  - destruct (children node !! c) as [child|].
    + destruct (insert_loop child w fr cnt) as [child' cnt2]; simpl.
      right; simpl. apply insert_non_empty.
    + destruct (insert_loop TrieNode_init w fr _) as [child' cnt2]; simpl.
      right; simpl. apply insert_non_empty.
Qed.

Lemma pruned_insert_child ch c child' w fr :
  pruned (mkNode ch w fr) -> pruned child' -> live child' ->
  pruned (mkNode (<[c := child']> ch) w fr).
Proof.
  intros Hpr Hpc Hl [|c' p] n Hp; [done|]. simpl.
  destruct (decide (c' = c)) as [->|Hne].
  - rewrite lookup_insert_eq. destruct p as [|c2 p].
    + simpl. by intros [= <-].
    + by apply Hpc.
  - rewrite lookup_insert_ne by done. intros Hd.
    by apply (Hpr (String c' p)).
Qed.

Lemma insert_loop_pruned node word fr cnt :
  pruned node -> pruned (fst (insert_loop node word fr cnt)).
Proof.
  revert node cnt. induction word as [|c w IH]; intros node cnt Hpr; simpl.
  - intros p n Hp Hd. destruct p as [|c p]; [done|]. by apply (Hpr (String c p)).
  - destruct (children node !! c) as [child|] eqn:Hc.
    + destruct (pruned_child _ _ _ Hpr Hc) as [Hpc _].
      pose proof (IH child cnt Hpc) as IHc.
      pose proof (insert_loop_live child w fr cnt) as Hl.
      destruct (insert_loop child w fr cnt) as [child' cnt2]; simpl in *.
      apply pruned_insert_child; [by rewrite node_eta|done..].
    + pose proof (IH TrieNode_init (cnt.1, cnt.2 + 1) pruned_init) as IHc.
      pose proof (insert_loop_live TrieNode_init w fr (cnt.1, cnt.2 + 1)) as Hl.
      destruct (insert_loop TrieNode_init w fr _) as [child' cnt2]; simpl in *.
      apply pruned_insert_child; [by rewrite node_eta|done..].
Qed.

Lemma _remove_pruned node word cnt :
  pruned node ->
  pruned (snd (fst (_remove node word cnt))) /\
  (fst (fst (_remove node word cnt)) = false -> live node ->
   live (snd (fst (_remove node word cnt)))).
Proof.
  revert node cnt. induction word as [|c w IH]; intros node cnt Hpr; simpl.
  - destruct (is_word node) eqn:Hw; simpl; [|done].
    split.
    + intros [|c p] n Hp Hd; [done|]. by apply (Hpr (String c p)).
    + unfold no_children. intros H%bool_decide_eq_false _. by right.
  - destruct (children node !! c) as [child|] eqn:Hc; [|done].
    destruct (pruned_child _ _ _ Hpr Hc) as [Hpc Hlc].
    destruct (IH child cnt Hpc) as [IH1 IH2].
    destruct (_remove child w cnt) as [[sd child'] cnt1]; simpl in *.
    destruct sd; simpl.
    + split.
      * intros [|c' p] n Hp; [done|]. simpl.
        destruct (decide (c' = c)) as [->|Hne].
        -- by rewrite lookup_delete_eq.
        -- rewrite lookup_delete_ne by done. intros Hd.
           by apply (Hpr (String c' p)).
      * unfold no_children; simpl.
        intros [H%bool_decide_eq_false|H%negb_false_iff]%andb_false_iff _.
        -- by right.
        -- by left.
    + split.
      * apply pruned_insert_child; [by rewrite node_eta| done | by apply IH2].
      * intros _ _. right; simpl. apply insert_non_empty.
Qed.

(** ** The operations on a [Trie] in terms of the node functions *)

Lemma remove_flag t word :
  fst (remove t word) = fst (fst (_remove (root t) word (_words t, _nodes t))).
Proof. unfold remove. by destruct (_remove _ _ _) as [[sd r] [w n]]. Qed.

Lemma remove_root t word :
  root (snd (remove t word)) =
  snd (fst (_remove (root t) word (_words t, _nodes t))).
Proof. unfold remove. by destruct (_remove _ _ _) as [[sd r] [w n]]. Qed.

Lemma remove_words t word :
  _words (snd (remove t word)) =
  fst (snd (_remove (root t) word (_words t, _nodes t))).
Proof. unfold remove. by destruct (_remove _ _ _) as [[sd r] [w n]]. Qed.

Lemma remove_nodes t word :
  _nodes (snd (remove t word)) =
  snd (snd (_remove (root t) word (_words t, _nodes t))).
Proof. unfold remove. by destruct (_remove _ _ _) as [[sd r] [w n]]. Qed.

Lemma weight_of_entry t word : weight_of t word = entry (root t) word.
Proof. done. Qed.

Lemma stored_entry node word :
  stored node word = true <-> is_Some (entry node word).
Proof.
  unfold stored, entry. destruct (descend node word) as [n|].
  - destruct (is_word n); split; intros H; try done; by destruct H.
  - split; intros H; [done|by destruct H].
Qed.

Lemma stored_entry_bool node word :
  stored node word = match entry node word with Some _ => true | None => false end.
Proof.
  unfold stored, entry. destruct (descend node word) as [n|]; [|done].
  by destruct (is_word n).
Qed.

Lemma descend_prefix node p s :
  is_Some (descend node (p +:+ s)) -> is_Some (descend node p).
Proof.
  rewrite descend_app. destruct (descend node p); [eauto|]. by intros [].
Qed.

(** When [remove] answers [True]: the word was stored and the root is left
    with no child and no word mark. *)
Lemma remove_true_iff t word :
  fst (remove t word) = true <->
  contains t word = true /\
  children (root (snd (remove t word))) = ∅ /\
  is_word (root (snd (remove t word))) = false.
Proof.
  rewrite remove_flag, remove_root, contains_stored.
  generalize (_words t, _nodes t). generalize (root t). clear t.
  intros node cnt. split.
  - intros H. split; [by eapply _remove_flag_stored|].
    by apply _remove_flag_dead.
  - intros (Hs & Hc & Hw). revert Hs Hc Hw. unfold stored.
    destruct word as [|c w]; simpl.
    + intros ->; simpl. unfold no_children. intros -> _. done.
    + destruct (children node !! c) as [child|]; [|done].
      destruct (_remove child w cnt) as [[sd child'] cnt1].
      destruct sd; simpl.
      * unfold no_children; simpl. intros _ -> ->. done.
      * intros _ H. by apply insert_non_empty in H.
Qed.

(** The invariant kept by every reachable state. *)
Lemma reachable_invariant t :
  reachable t ->
  pruned (root t) /\
  _nodes t = Z.of_nat (node_total (root t)) /\
  _words t = Z.of_nat (word_total (root t)).
Proof.
  induction 1 as [|t word fr Hr (Hp & Hn & Hw)|t word Hr (Hp & Hn & Hw)].
  - split; [apply pruned_init|]. done.
  - rewrite insert_root, insert_nodes, insert_words.
    split; [by apply insert_loop_pruned|].
    pose proof (insert_loop_counts (root t) word fr (_words t, _nodes t)) as [H1 H2].
    simpl in *. lia.
  - rewrite remove_root, remove_nodes, remove_words.
    split; [by apply _remove_pruned|].
    pose proof (_remove_counts (root t) word (_words t, _nodes t)) as [H1 H2].
    simpl in *. lia.
Qed.

Lemma node_total_pos node : (1 <= node_total node)%nat.
Proof. rewrite node_total_eq. lia. Qed.

(** Inserting a word that is not stored and removing it again gives back the
    counters, the root's word mark and the emptiness of its children; the
    flag tells whether the node was dead to begin with. *)
Lemma insert_remove_roundtrip node word fr cnt :
  pruned node -> stored node word = false ->
  let n1 := insert_loop node word fr cnt in
  let r := _remove (fst n1) word (snd n1) in
  snd r = cnt /\
  is_word (snd (fst r)) = is_word node /\
  (children (snd (fst r)) = ∅ <-> children node = ∅) /\
  (fst (fst r) = true <-> children node = ∅ /\ is_word node = false).
Proof.
  revert node cnt. induction word as [|c w IH]; intros node cnt Hpr; unfold stored; simpl.
  - intros Hw. simpl. unfold no_children; simpl. rewrite Hw; simpl.
    split; [destruct cnt as [a b]; simpl; f_equal; lia|].
    split; [done|]. split; [done|].
    rewrite bool_decide_eq_true. tauto.
  - destruct (children node !! c) as [child|] eqn:Hc.
    + intros Hs. destruct (pruned_child _ _ _ Hpr Hc) as [Hpc Hlc].
      destruct (IH child cnt Hpc Hs) as (I1 & I2 & I3 & I4). clear IH.
      destruct (insert_loop child w fr cnt) as [child1 cnt1]; simpl in *.
      rewrite lookup_insert_eq.
      destruct (_remove child1 w cnt1) as [[sd child2] cnt2]; simpl in *.
      destruct sd; simpl.
      * exfalso. destruct I4 as [I4 _]. destruct I4 as [Hd1 Hd2]; [done|].
        destruct Hlc as [Hl|Hl]; congruence.
      * assert (children node <> ∅) as Hne.
        { intros He. by rewrite He, lookup_empty in Hc. }
        split; [done|]. split; [done|].
        split; split.
        -- intros H. by apply insert_non_empty in H.
        -- done.
        -- done.
        -- by intros [? _].
    + intros _.
      destruct (IH TrieNode_init (cnt.1, cnt.2 + 1) pruned_init (stored_init w))
        as (I1 & I2 & I3 & I4). clear IH.
      destruct (insert_loop TrieNode_init w fr (cnt.1, cnt.2 + 1)) as [child1 cnt1];
        simpl in *.
      rewrite lookup_insert_eq.
      destruct (_remove child1 w cnt1) as [[sd child2] cnt2]; simpl in *.
      destruct I4 as [_ I4]. rewrite I4 by done. simpl.
      rewrite delete_insert_id by done. unfold no_children; simpl. subst cnt2.
      split; [destruct cnt as [a b]; simpl; f_equal; lia|].
      split; [done|]. split; [done|].
      rewrite andb_true_iff, bool_decide_eq_true, negb_true_iff. tauto.
Qed.

(** ** Induction on the tree *)

Lemma child_smaller node c child :
  children node !! c = Some child -> (node_total child < node_total node)%nat.
Proof.
  intros Hc. rewrite (node_total_eq node), (sum_over_delete _ _ _ _ Hc). lia.
Qed.

Lemma TrieNode_children_ind (P : TrieNode -> Prop) :
  (forall node,
      (forall c child, children node !! c = Some child -> P child) -> P node) ->
  forall node, P node.
Proof.
  intros Hstep node.
  remember (node_total node) as n eqn:Hn.
  revert node Hn. induction n as [n IH] using lt_wf_ind. intros node ->.
  apply Hstep. intros c child Hc.
  apply (IH (node_total child)); [by eapply child_smaller|done].
Qed.

(** ** Height *)

Lemma get_height_eq node :
  get_height node =
  if bool_decide (children node = ∅) then 0
  else 1 + default 0 (max_over (children node)).
Proof. by destruct node. Qed.

Lemma max_over_list ch : max_over ch = max_list (map_to_list ch).
Proof.
  unfold max_over, max_list. rewrite map_fold_foldr.
  induction (map_to_list ch) as [|[c x] l IH]; simpl; [done|]. by rewrite IH.
Qed.

Lemma max_list_upper l c child :
  In (c, child) l -> exists m, max_list l = Some m /\ get_height child <= m.
Proof.
  induction l as [|[c' x] l IH]; simpl; [done|].
  intros [[= -> ->]|Hin].
  - destruct (max_list l) as [m|]; simpl; eexists; split; try done; lia.
  - destruct (IH Hin) as (m & -> & Hm). simpl. eexists; split; [done|]. lia.
Qed.

Lemma max_list_attained l m :
  max_list l = Some m -> exists c child, In (c, child) l /\ get_height child = m.
Proof.
  revert m. induction l as [|[c x] l IH]; simpl; intros m; [done|].
  destruct (max_list l) as [m0|] eqn:Hl; simpl; intros [= <-].
  - destruct (Z.max_spec (get_height x) m0) as [[_ ->]|[_ ->]].
    + destruct (IH m0 eq_refl) as (c' & child & Hin & Hh). eauto 6.
    + eauto 6.
  - eauto 6.
Qed.

Lemma max_over_upper ch c child :
  ch !! c = Some child -> exists m, max_over ch = Some m /\ get_height child <= m.
Proof.
  intros Hc. rewrite max_over_list. apply (max_list_upper _ c).
  apply list_elem_of_In. by apply elem_of_map_to_list.
Qed.

Lemma max_over_attained ch m :
  max_over ch = Some m -> exists c child, ch !! c = Some child /\ get_height child = m.
Proof.
  rewrite max_over_list. intros (c & child & Hin & Hh)%max_list_attained.
  exists c, child. split; [|done].
  by apply elem_of_map_to_list, list_elem_of_In.
Qed.

Lemma max_over_nonempty ch : ch <> ∅ -> is_Some (max_over ch).
Proof.
  intros Hne. destruct (map_choose ch Hne) as (c & child & Hc).
  destruct (max_over_upper ch c child Hc) as (m & -> & _). eauto.
Qed.

Lemma get_height_nonneg node : 0 <= get_height node.
Proof.
  induction node as [node IH] using TrieNode_children_ind.
  rewrite get_height_eq. case_bool_decide as He; [done|].
  destruct (max_over_nonempty _ He) as [m Hm]. rewrite Hm; simpl.
  destruct (max_over_attained _ _ Hm) as (c & child & Hc & <-).
  specialize (IH c child Hc). lia.
Qed.

(** No path is longer than the height. *)
Lemma descend_length_le node path n :
  descend node path = Some n -> Z.of_nat (String.length path) <= get_height node.
Proof.
  revert node. induction path as [|c p IH]; intros node; simpl.
  - intros _. apply get_height_nonneg.
  - destruct (children node !! c) as [child|] eqn:Hc; [|done].
    intros Hd. specialize (IH child Hd).
    rewrite (get_height_eq node). case_bool_decide as He.
    + by rewrite He, lookup_empty in Hc.
    + destruct (max_over_upper _ _ _ Hc) as (m & -> & Hm). simpl. lia.
Qed.

(** Some path is as long as the height. *)
Lemma descend_length_max node :
  exists path n,
    descend node path = Some n /\ Z.of_nat (String.length path) = get_height node.
Proof.
  induction node as [node IH] using TrieNode_children_ind.
  rewrite get_height_eq. case_bool_decide as He.
  - exists EmptyString, node. done.
  - destruct (max_over_nonempty _ He) as [m Hm]. rewrite Hm; simpl.
    destruct (max_over_attained _ _ Hm) as (c & child & Hc & <-).
    destruct (IH c child Hc) as (p & n & Hd & Hl).
    exists (String c p), n. simpl. rewrite Hc. split; [done|]. lia.
Qed.

(** Inserting into a fresh node builds a chain as long as the word. *)
Lemma get_height_insert_init word fr cnt :
  get_height (fst (insert_loop TrieNode_init word fr cnt)) =
  Z.of_nat (String.length word).
Proof.
  revert cnt. induction word as [|c w IH]; intros cnt; simpl.
  - rewrite get_height_eq; simpl. by rewrite bool_decide_eq_true_2.
  - rewrite lookup_empty.
    specialize (IH (cnt.1, cnt.2 + 1)).
    destruct (insert_loop TrieNode_init w fr (cnt.1, cnt.2 + 1)) as [child' cnt2];
      simpl in *.
    rewrite get_height_eq; simpl.
    rewrite bool_decide_eq_false_2 by apply insert_non_empty.
    rewrite insert_empty. unfold max_over. rewrite map_fold_singleton. simpl.
    rewrite IH. lia.
Qed.

(** ** Strings *)

Lemma app_cons c p s : String c p +:+ s = String c (p +:+ s).
Proof. reflexivity. Qed.

Lemma str_app_nil_r s : s +:+ "" = s.
Proof. induction s as [|c s IH]; [done|]. by rewrite app_cons, IH. Qed.

Lemma str_app_assoc a b c : (a +:+ b) +:+ c = a +:+ (b +:+ c).
Proof. induction a as [|x a IH]; [done|]. by rewrite !app_cons, IH. Qed.

Lemma get_app_cons p c s :
  String.get (String.length p) (p +:+ String c s) = Some c.
Proof. induction p as [|x p IH]; [done|]. rewrite app_cons. exact IH. Qed.

Lemma get_length_none p : String.get (String.length p) p = None.
Proof. induction p as [|x p IH]; [done|]. exact IH. Qed.

Lemma prefix_app p w : String.prefix p w = true <-> exists s, w = p +:+ s.
Proof.
  revert w. induction p as [|a p IH]; intros w.
  - split; [intros _; by exists w|intros _; by destruct w].
  - destruct w as [|b w]; simpl.
    + split; [done|]. intros [s Hs]. by rewrite app_cons in Hs.
    + destruct (ascii_dec a b) as [->|Hne].
      * rewrite IH. split; intros [s Hs]; exists s.
        -- by rewrite app_cons, Hs.
        -- rewrite app_cons in Hs. by injection Hs.
      * split; [done|]. intros [s Hs]. rewrite app_cons in Hs. congruence.
Qed.

(** ** The entries gathered by [collect] *)

Lemma collect_eq node path :
  collect node path =
  (if is_word node then [(freq node, path)] else []) ++
  concat (map snd (sorted_by_key (child_entries node path))).
Proof. by destruct node. Qed.

Lemma child_entries_list node path :
  child_entries node path =
  map (fun x => (fst x, collect (snd x) (path +:+ String (fst x) "")))
      (map_to_list (children node)).
Proof.
  unfold child_entries. rewrite map_fold_foldr.
  induction (map_to_list (children node)) as [|[c x] l IH]; simpl; [done|].
  by rewrite IH.
Qed.

Lemma sorted_insert_perm {B} (x : ascii * B) l :
  Permutation (sorted_insert x l) (x :: l).
Proof.
  induction l as [|y l IH]; simpl; [done|].
  destruct (Ascii.ltb (fst y) (fst x)); [|done].
  rewrite IH. apply perm_swap.
Qed.

Lemma sorted_by_key_perm {B} (l : list (ascii * B)) :
  Permutation (sorted_by_key l) l.
Proof.
  induction l as [|x l IH]; simpl; [done|].
  rewrite sorted_insert_perm. by constructor.
Qed.

Lemma In_sorted_by_key {B} (x : ascii * B) l :
  In x (sorted_by_key l) <-> In x l.
Proof.
  split; apply Permutation_in; [|symmetry]; apply sorted_by_key_perm.
Qed.

Lemma In_child_entries node path c sub :
  In (c, sub) (sorted_by_key (child_entries node path)) <->
  exists child, children node !! c = Some child /\
                sub = collect child (path +:+ String c "").
Proof.
  rewrite In_sorted_by_key.
  rewrite child_entries_list, in_map_iff. split.
  - intros ([c' child] & [= <- <-] & Hin). exists child. split; [|done].
    by apply elem_of_map_to_list, list_elem_of_In.
  - intros (child & Hc & ->). exists (c, child). split; [done|].
    by apply list_elem_of_In, elem_of_map_to_list.
Qed.

Lemma child_entries_keys node path :
  NoDup (map fst (sorted_by_key (child_entries node path))).
Proof.
  rewrite (sorted_by_key_perm _).
  rewrite child_entries_list, map_map; simpl.
  apply NoDup_fst_map_to_list.
Qed.

(** An entry is gathered exactly when its word extends the path by the
    spelling of a word node, whose weight it carries. *)
Lemma In_collect node path fr word :
  In (fr, word) (collect node path) <->
  exists s n, word = path +:+ s /\ descend node s = Some n /\
              is_word n = true /\ freq n = fr.
Proof.
  revert path. induction node as [node IH] using TrieNode_children_ind.
  intros path. rewrite collect_eq, in_app_iff, in_concat. split.
  - intros [Hown|(sub & Hsub & Hin)].
    + destruct (is_word node) eqn:Hw; [|done].
      destruct Hown as [[= <- <-]|[]].
      exists EmptyString, node. by rewrite str_app_nil_r.
    + apply in_map_iff in Hsub as ([c sub'] & <- & Hent).
      apply In_child_entries in Hent as (child & Hc & ->). simpl in Hin.
      apply (IH c child Hc) in Hin as (s & n & -> & Hd & Hw & Hf).
      exists (String c s), n. rewrite str_app_assoc, app_cons. simpl.
      by rewrite Hc.
  - intros (s & n & -> & Hd & Hw & Hf). destruct s as [|c s]; simpl in Hd.
    + injection Hd as <-. left. rewrite Hw, str_app_nil_r, Hf. by left.
    + destruct (children node !! c) as [child|] eqn:Hc; [|done].
      right. exists (collect child (path +:+ String c "")). split.
      * apply in_map_iff. exists (c, collect child (path +:+ String c "")).
        split; [done|]. apply In_child_entries. eauto.
      * apply (IH c child Hc). exists s, n.
        by rewrite str_app_assoc, app_cons.
Qed.

Lemma NoDup_concat_tagged {A} (tag : A -> option ascii) (l : list (ascii * list A)) :
  NoDup (map fst l) ->
  (forall c sub x, In (c, sub) l -> In x sub -> tag x = Some c) ->
  (forall c sub, In (c, sub) l -> NoDup sub) ->
  NoDup (concat (map snd l)).
Proof.
  induction l as [|[c sub] l IH]; simpl; intros Hkeys Htag Hsub.
  - constructor.
  - apply NoDup_cons in Hkeys as [Hc Hkeys].
    apply NoDup_app. split; [by apply (Hsub c); left|]. split.
    + intros x Hx%list_elem_of_In Hx'%list_elem_of_In.
      apply in_concat in Hx' as (sub' & Hsub' & Hin).
      apply in_map_iff in Hsub' as ([c' sub''] & <- & Hent). simpl in Hin.
      assert (tag x = Some c) as H1 by (apply (Htag c sub); [by left|done]).
      assert (tag x = Some c') as H2 by (apply (Htag c' sub''); [by right|done]).
      apply Hc. apply list_elem_of_In, in_map_iff. exists (c', sub'').
      split; [|done]. simpl. congruence.
    + apply IH; [done|..].
      * intros c' sub' x Hent. apply Htag. by right.
      * intros c' sub' Hent. apply (Hsub c'). by right.
Qed.

Lemma NoDup_collect node path : NoDup (collect node path).
Proof.
  revert path. induction node as [node IH] using TrieNode_children_ind.
  intros path. rewrite collect_eq.
  set (tag := fun x : Q * string => String.get (String.length path) (snd x)).
  assert (forall c sub x,
             In (c, sub) (sorted_by_key (child_entries node path)) ->
             In x sub -> tag x = Some c) as Htag.
  { intros c sub [fr w] (child & Hc & ->)%In_child_entries Hin.
    apply In_collect in Hin as (s & n & -> & _). unfold tag; simpl.
    rewrite str_app_assoc, app_cons. apply get_app_cons. }
  apply NoDup_app. split; [|split].
  - destruct (is_word node); [|constructor].
    apply NoDup_cons. split; [|constructor]. by intros ?%elem_of_nil.
  - intros x Hx%list_elem_of_In Hx'%list_elem_of_In.
    destruct (is_word node); [|done]. destruct Hx as [<-|[]].
    apply in_concat in Hx' as (sub & Hsub & Hin).
    apply in_map_iff in Hsub as ([c sub'] & <- & Hent). simpl in Hin.
    specialize (Htag c sub' _ Hent Hin). unfold tag in Htag; simpl in Htag.
    by rewrite get_length_none in Htag.
  - apply (NoDup_concat_tagged tag); [apply child_entries_keys|done|].
    intros c sub (child & Hc & ->)%In_child_entries. by apply (IH c child).
Qed.

Lemma collect_functional node path f1 f2 word :
  In (f1, word) (collect node path) -> In (f2, word) (collect node path) ->
  f1 = f2.
Proof.
  intros (s1 & n1 & H1 & Hd1 & _ & <-)%In_collect
         (s2 & n2 & H2 & Hd2 & _ & <-)%In_collect.
  rewrite H1 in H2. apply (inj (String.app path)) in H2. subst s2.
  congruence.
Qed.

Lemma NoDup_collect_words node path : NoDup (map snd (collect node path)).
Proof.
  apply (NoDup_fmap_2_strong snd); [|apply NoDup_collect].
  intros [f1 w1] [f2 w2] H1%list_elem_of_In H2%list_elem_of_In; simpl.
  intros <-. f_equal. by eapply collect_functional.
Qed.

(** ** Sorting the candidates *)

Lemma sort_insert_perm x l : Permutation (sort_insert x l) (x :: l).
Proof.
  induction l as [|y l IH]; simpl; [done|].
  destruct (key_lt (sort_key y) (sort_key x)); [|done].
  rewrite IH. apply perm_swap.
Qed.

Lemma list_sort_perm l : Permutation (list_sort l) l.
Proof.
  induction l as [|x l IH]; simpl; [done|].
  rewrite sort_insert_perm. by constructor.
Qed.

Lemma Qltb_lt a b : Qltb a b = true <-> (a < b)%Q.
Proof.
  unfold Qltb. rewrite negb_true_iff. split.
  - intros H. apply Qnot_le_lt. intros Hle%Qle_bool_iff. congruence.
  - intros H. destruct (Qle_bool b a) eqn:Hb; [|done].
    apply Qle_bool_iff in Hb. by apply Qle_not_lt in Hb.
Qed.

Lemma Qopp_eq_iff a b : (- a == - b)%Q <-> (a == b)%Q.
Proof.
  split; intros H.
  - rewrite <- (Qopp_involutive a), <- (Qopp_involutive b). by rewrite H.
  - by rewrite H.
Qed.

Lemma Qopp_lt_iff a b : (- a < - b)%Q <-> (b < a)%Q.
Proof.
  split; intros H.
  - rewrite <- (Qopp_involutive a), <- (Qopp_involutive b).
    by apply Qopp_lt_compat.
  - by apply Qopp_lt_compat.
Qed.

(** The comparison of the sort keys is the ranking. *)
Lemma key_lt_ranked a b :
  key_lt (sort_key a) (sort_key b) = true <-> ranked_before a b.
Proof.
  unfold key_lt, sort_key, ranked_before; simpl.
  destruct (Qeq_bool (- fst a) (- fst b)) eqn:He.
  - apply Qeq_bool_iff in He. apply (proj1 (Qopp_eq_iff _ _)) in He.
    split; [intros H; by right|].
    intros [Hlt|[_ H]]; [|done].
    rewrite He in Hlt. by apply Qlt_irrefl in Hlt.
  - apply Qeq_bool_neq in He. rewrite Qopp_eq_iff in He.
    rewrite Qltb_lt, Qopp_lt_iff. split; [intros H; by left|].
    intros [Hlt|[H _]]; done.
Qed.

Lemma string_ltb_trans a b c :
  String.ltb a b = true -> String.ltb b c = true -> String.ltb a c = true.
Proof.
  unfold String.ltb. intros Hab Hbc.
  destruct (String.compare a b) eqn:Eab; try done.
  destruct (String.compare b c) eqn:Ebc; try done.
  assert (String.le a c) as Hle.
  { transitivity b; unfold String.le, String.leb; [by rewrite Eab|by rewrite Ebc]. }
  unfold String.le, String.leb in Hle.
  destruct (String.compare a c) eqn:Eac; try done.
  apply String.compare_eq_iff in Eac as ->.
  rewrite String.compare_antisym, Ebc in Eab. done.
Qed.

Lemma string_ltb_total a b :
  a <> b -> String.ltb a b = true \/ String.ltb b a = true.
Proof.
  intros Hne. unfold String.ltb.
  destruct (String.compare a b) eqn:Eab.
  - by apply String.compare_eq_iff in Eab.
  - by left.
  - right. rewrite String.compare_antisym, Eab. done.
Qed.

Lemma ranked_before_trans a b c :
  ranked_before a b -> ranked_before b c -> ranked_before a c.
Proof.
  unfold ranked_before. intros [H1|[H1 L1]] [H2|[H2 L2]].
  - left. by eapply Qlt_trans.
  - left. by rewrite <- H2.
  - left. by rewrite H1.
  - right. split; [by rewrite H1|by eapply string_ltb_trans].
Qed.

Lemma ranked_before_total a b :
  snd a <> snd b -> ~ ranked_before b a -> ranked_before a b.
Proof.
  unfold ranked_before. intros Hne Hn.
  destruct (Q_dec (fst a) (fst b)) as [[Hlt|Hlt]|Heq].
  - exfalso. apply Hn. by left.
  - by left.
  - destruct (string_ltb_total _ _ Hne) as [H|H].
    + by right.
    + exfalso. apply Hn. right. split; [by symmetry|done].
Qed.

Lemma In_sort_insert y x l : In y (sort_insert x l) <-> In y (x :: l).
Proof. split; apply Permutation_in; [|symmetry]; apply sort_insert_perm. Qed.

Lemma In_list_sort y l : In y (list_sort l) <-> In y l.
Proof. split; apply Permutation_in; [|symmetry]; apply list_sort_perm. Qed.

Lemma sort_insert_sorted x l :
  StronglySorted ranked_before l -> ~ In (snd x) (map snd l) ->
  StronglySorted ranked_before (sort_insert x l).
Proof.
  induction l as [|y l IH]; simpl; intros Hs Hx.
  - repeat constructor.
  - inversion Hs as [|? ? Hs' Hall]; subst.
    destruct (key_lt (sort_key y) (sort_key x)) eqn:Hk.
    + apply key_lt_ranked in Hk. constructor; [apply IH; tauto|].
      apply Forall_forall. intros z Hz%list_elem_of_In.
      apply (proj1 (In_sort_insert _ _ _)) in Hz.
      destruct Hz as [<-|Hz]; [done|].
      rewrite Forall_forall in Hall. by apply Hall, list_elem_of_In.
    + assert (ranked_before x y) as Hxy.
      { apply ranked_before_total; [intros He; apply Hx; by left|].
        intros H%key_lt_ranked. congruence. }
      constructor; [done|]. constructor; [done|].
      apply Forall_forall. intros z Hz. rewrite Forall_forall in Hall.
      eapply ranked_before_trans; [exact Hxy|by apply Hall].
Qed.

Lemma list_sort_sorted l :
  NoDup (map snd l) -> StronglySorted ranked_before (list_sort l).
Proof.
  induction l as [|x l IH]; simpl; intros Hnd.
  - constructor.
  - apply NoDup_cons in Hnd as [Hx Hnd].
    apply sort_insert_sorted; [by apply IH|].
    intros Hin. apply Hx, list_elem_of_In.
    apply in_map_iff in Hin as (y & Hy & Hin).
    apply (proj1 (In_list_sort _ _)) in Hin.
    apply in_map_iff. eauto.
Qed.

(** ** The result of [complete] *)

Lemma stored_weight_of t word :
  contains t word = true <-> exists fr, weight_of t word = Some fr.
Proof.
  unfold contains, weight_of, entry. destruct (descend (root t) word) as [n|].
  - destruct (is_word n); split; try done; eauto. by intros [? ?].
  - split; [done|]. by intros [? ?].
Qed.

(** The full ranking of the stored words that extend a prefix, of which
    [complete] returns a slice. *)
Lemma complete_ranking t prefix :
  exists ranking : list (Q * string),
    (forall fr word, In (fr, word) ranking <->
       String.prefix prefix word = true /\ weight_of t word = Some fr) /\
    StronglySorted ranked_before ranking /\
    NoDup (map snd ranking) /\
    forall k, complete t prefix k = map snd (slice_to ranking k).
Proof.
  unfold complete, weight_of, entry.
  destruct (descend (root t) prefix) as [node|] eqn:Hd.
  - exists (list_sort (collect node prefix)). split; [|split; [|split]].
    + intros fr word. rewrite In_list_sort, In_collect, prefix_app. split.
      * intros (s & n & -> & Hn & Hw & Hf). split; [eauto|].
        by rewrite descend_app, Hd, Hn, Hw, Hf.
      * intros [[s ->] H]. rewrite descend_app, Hd in H.
        destruct (descend node s) as [n|] eqn:Hn; [|done].
        destruct (is_word n) eqn:Hw; [|done]. injection H as H.
        by exists s, n.
    + apply list_sort_sorted, NoDup_collect_words.
    + rewrite (list_sort_perm _). apply NoDup_collect_words.
    + done.
  - exists []. split; [|split; [|split]].
    + intros fr word. split; [done|]. rewrite prefix_app.
      intros [[s ->] H]. by rewrite descend_app, Hd in H.
    + constructor.
    + constructor.
    + intros k. unfold slice_to. by destruct (0 <=? k); rewrite firstn_nil.
Qed.

(** ** Lemmas on whole tries *)

Lemma contains_weight_of t word :
  contains t word =
  match weight_of t word with Some _ => true | None => false end.
Proof. apply stored_entry_bool. Qed.

Lemma weight_of_insert_same t word fr :
  weight_of (insert t word fr) word = Some fr.
Proof.
  unfold weight_of, entry. rewrite insert_root.
  destruct (descend_insert_loop_same (root t) word fr (_words t, _nodes t))
    as (n & -> & -> & ->).
  done.
Qed.

Lemma weight_of_remove_other t word other :
  other <> word -> weight_of (snd (remove t word)) other = weight_of t other.
Proof.
  intros Hne. rewrite !weight_of_entry, remove_root. by apply _remove_other.
Qed.

Lemma contains_remove_same t word : contains (snd (remove t word)) word = false.
Proof. rewrite contains_stored, remove_root. apply _remove_gone. Qed.

Lemma remove_absent t word :
  contains t word = false -> remove t word = (false, t).
Proof.
  intros H. unfold remove. rewrite _remove_absent by exact H. by destruct t.
Qed.

Lemma In_items t word fr :
  In (word, fr) (items t) <-> weight_of t word = Some fr.
Proof.
  unfold items, weight_of, entry. rewrite in_map_iff. split.
  - intros ([f w] & [= <- <-] & Hin).
    apply In_collect in Hin as (s & n & Hs & Hd & Hw & Hf).
    change ("" +:+ s) with s in Hs. subst w. by rewrite Hd, Hw, Hf.
  - intros H. exists (fr, word). split; [done|]. apply In_collect.
    destruct (descend (root t) word) as [n|] eqn:Hd; [|done].
    destruct (is_word n) eqn:Hw; [|done]. injection H as H.
    by exists word, n.
Qed.

Lemma slice_to_nonneg {A} (l : list A) k :
  0 <= k -> slice_to l k = firstn (Z.to_nat k) l.
Proof. intros H. unfold slice_to. by rewrite (proj2 (Z.leb_le 0 k)). Qed.

(** ** The claims *)

(** C1 (the code departs from it).  The claim: [remove(W)] returns [True]
    exactly when [W] is stored.  After inserting "cat" and "car", the word
    "cat" is stored and [remove("cat")] takes it out, yet the call returns
    [False], because "ca" keeps the child "r"; likewise removing "a" while
    "ab" is stored returns [False].  [remove] hands back the pruning signal
    of [_remove] at the root (see [remove_true_iff]). *)
Theorem remove_returns_prune_signal :
  let t := insert (insert Trie_init "cat" 5%Q) "car" 5%Q in
  let u := insert (insert Trie_init "a" 1%Q) "ab" 1%Q in
  (contains t "cat" = true /\
   fst (remove t "cat") = false /\
   contains (snd (remove t "cat")) "cat" = false /\
   _words (snd (remove t "cat")) = _words t - 1) /\
  (contains u "a" = true /\
   fst (remove u "a") = false /\
   contains (snd (remove u "a")) "a" = false).
Proof. vm_compute. repeat split; reflexivity. Qed.

(** C2 (the code departs from it).  The claim: [complete(P, k)] is empty for
    every [k <= 0].  It is for [k = 0]; for a negative [k] the slice
    [candidates[:k]] drops the last [|k|] candidates and keeps the others:
    with "cat", "car" and "can" stored, [complete("ca", -1)] is
    ["car"; "cat"]. *)
Theorem complete_negative_k_not_empty :
  complete cat_car_can "ca" (-1) = ["car"; "cat"] /\
  complete cat_car_can "" (-2) = ["car"] /\
  forall t prefix, complete t prefix 0 = [].
Proof.
  split; [by vm_compute|]. split; [by vm_compute|].
  intros t prefix. unfold complete.
  by destruct (descend (root t) prefix).
Qed.

(** C3.  For every trie, prefix [P] and [k >= 0], [complete(P, k)] is the
    first [k] words of the ranking of the stored words that extend [P]:
    the list that holds exactly those words with their weights, heavier
    first and, at equal weight, in ascending order of the words.  After
    inserting cat with 5.0, car with 5.0 and can with 3.0 into an empty
    trie, [complete("ca", 2)] is ["car"; "cat"]. *)
Theorem complete_top_k_ranked :
  (forall t prefix k, 0 <= k ->
     exists ranking : list (Q * string),
       (forall fr word, In (fr, word) ranking <->
          String.prefix prefix word = true /\ weight_of t word = Some fr) /\
       StronglySorted ranked_before ranking /\
       complete t prefix k = map snd (firstn (Z.to_nat k) ranking)) /\
  complete (insert (insert (insert Trie_init "cat" 5%Q) "car" 5%Q) "can" 3%Q)
           "ca" 2 = ["car"; "cat"].
Proof.
  split; [|by vm_compute].
  intros t prefix k Hk.
  destruct (complete_ranking t prefix) as (ranking & Hin & Hs & _ & Hc).
  exists ranking. split; [done|]. split; [done|].
  by rewrite Hc, slice_to_nonneg.
Qed.

Lemma complete_top_k_ranked_witness :
  0 <= 2 /\
  exists ranking : list (Q * string),
    (forall fr word, In (fr, word) ranking <->
       String.prefix "ca" word = true /\ weight_of cat_car_can word = Some fr) /\
    StronglySorted ranked_before ranking /\
    complete cat_car_can "ca" 2 = map snd (firstn (Z.to_nat 2) ranking).
Proof.
  split; [lia|]. apply (proj1 complete_top_k_ranked cat_car_can "ca" 2). lia.
Defined.

(** C4.  After [insert(W, F)]: [contains(W)] is true, the stored weight of
    [W] is [F] whatever it was before, and [_words] has grown by one if [W]
    was absent and is unchanged if [W] was present. *)
Theorem insert_contains_weight_count t word fr :
  contains (insert t word fr) word = true /\
  weight_of (insert t word fr) word = Some fr /\
  fst (fst (stats (insert t word fr))) =
    fst (fst (stats t)) + (if contains t word then 0 else 1).
Proof.
  split; [|split].
  - by rewrite contains_weight_of, weight_of_insert_same.
  - apply weight_of_insert_same.
  - simpl. rewrite insert_words, insert_loop_words. done.
Qed.

(** C5.  In every state reachable from the empty trie by inserts and
    removes: every node below the root is a word or has a child, [_nodes]
    is the number of nodes of the tree (the root included) and [_words] is
    the number of word nodes. *)
Theorem reachable_pruned_and_counted t :
  reachable t ->
  (forall path n, path <> EmptyString -> descend (root t) path = Some n ->
     is_word n = true \/ children n <> ∅) /\
  _nodes t = Z.of_nat (node_total (root t)) /\
  _words t = Z.of_nat (word_total (root t)).
Proof. apply reachable_invariant. Qed.

Lemma reachable_pruned_and_counted_witness :
  let t := snd (remove cat_car_can "cat") in
  reachable t /\
  ((forall path n, path <> EmptyString -> descend (root t) path = Some n ->
      is_word n = true \/ children n <> ∅) /\
   _nodes t = Z.of_nat (node_total (root t)) /\
   _words t = Z.of_nat (word_total (root t))).
Proof.
  assert (reachable (snd (remove cat_car_can "cat"))) as H.
  { unfold cat_car_can. repeat constructor. }
  split; [exact H|]. apply (reachable_pruned_and_counted _ H).
Defined.

(** C6.  After inserting "cat" and then "car" into any trie and removing
    "cat": "car" is still contained (with its weight), "cat" is not, and the
    nodes of the shared path "c", "ca" are still there.  In general,
    removing a word changes neither the membership nor the weight of any
    other word. *)
Theorem remove_keeps_other_words :
  (forall t f1 f2,
     let t3 := snd (remove (insert (insert t "cat" f1) "car" f2) "cat") in
     contains t3 "car" = true /\
     weight_of t3 "car" = Some f2 /\
     contains t3 "cat" = false /\
     is_Some (descend (root t3) "c") /\
     is_Some (descend (root t3) "ca")) /\
  (forall t word other,
     other <> word ->
     contains (snd (remove t word)) other = contains t other /\
     weight_of (snd (remove t word)) other = weight_of t other).
Proof.
  split.
  - intros t f1 f2 t3.
    assert (weight_of t3 "car" = Some f2) as Hw.
    { unfold t3. rewrite weight_of_remove_other by done.
      apply weight_of_insert_same. }
    assert (is_Some (descend (root t3) "car")) as Hd.
    { unfold weight_of, entry in Hw. destruct (descend (root t3) "car"); [eauto|done]. }
    split; [by rewrite contains_weight_of, Hw|]. split; [done|].
    split; [apply contains_remove_same|]. split.
    + apply (descend_prefix _ "c" "ar"). exact Hd.
    + apply (descend_prefix _ "ca" "r"). exact Hd.
  - intros t word other Hne.
    rewrite !contains_weight_of, weight_of_remove_other by done. done.
Qed.

Lemma remove_keeps_other_words_witness :
  "car" <> "cat" /\
  contains (snd (remove cat_car_can "cat")) "car" = contains cat_car_can "car" /\
  weight_of (snd (remove cat_car_can "cat")) "car" = weight_of cat_car_can "car".
Proof.
  split; [done|].
  apply (proj2 remove_keeps_other_words cat_car_can "cat" "car"). done.
Defined.

(** C7.  For a reachable state [S] and a word [W] that is not stored in
    [S], inserting [W] and removing it at once gives back the [_words] and
    [_nodes] of [S]. *)
Theorem insert_then_remove_restores_counts S word fr :
  reachable S -> contains S word = false ->
  let S' := snd (remove (insert S word fr) word) in
  _words S' = _words S /\ _nodes S' = _nodes S.
Proof.
  intros Hr Hc S'. unfold S'.
  rewrite remove_words, remove_nodes, insert_root, insert_words, insert_nodes.
  destruct (reachable_invariant S Hr) as [Hp _].
  destruct (insert_remove_roundtrip (root S) word fr (_words S, _nodes S) Hp Hc)
    as [H _].
  simpl in H.
  destruct (insert_loop (root S) word fr (_words S, _nodes S)) as [r [w n]];
    simpl in *.
  by rewrite H.
Qed.

Lemma insert_then_remove_restores_counts_witness :
  reachable cat_car_can /\ contains cat_car_can "cab" = false /\
  let S' := snd (remove (insert cat_car_can "cab" 2%Q) "cab") in
  _words S' = _words cat_car_can /\ _nodes S' = _nodes cat_car_can.
Proof.
  assert (reachable cat_car_can) as H by (unfold cat_car_can; repeat constructor).
  split; [exact H|]. split; [reflexivity|].
  apply (insert_then_remove_restores_counts cat_car_can "cab" 2%Q H).
  reflexivity.
Defined.

(** C8.  When [W] is not stored, [remove(W)] returns [False] and leaves the
    trie as it was.  Hence a second [remove(W)] in a row returns [False];
    and in a reachable state, before and after any [remove], [_nodes] is at
    least 1. *)
Theorem remove_absent_is_noop :
  (forall t word, contains t word = false -> remove t word = (false, t)) /\
  (forall t word, fst (remove (snd (remove t word)) word) = false) /\
  (forall t word,
     reachable t -> 1 <= _nodes t /\ 1 <= _nodes (snd (remove t word))).
Proof.
  split; [exact remove_absent|]. split.
  - intros t word. by rewrite remove_absent by apply contains_remove_same.
  - intros t word Hr.
    destruct (reachable_invariant t Hr) as (_ & -> & _).
    destruct (reachable_invariant _ (reachable_remove t word Hr)) as (_ & -> & _).
    pose proof (node_total_pos (root t)).
    pose proof (node_total_pos (root (snd (remove t word)))).
    lia.
Qed.

Lemma remove_absent_is_noop_witness :
  (contains cat_car_can "ca" = false /\
   remove cat_car_can "ca" = (false, cat_car_can)) /\
  (reachable cat_car_can /\
   1 <= _nodes cat_car_can /\ 1 <= _nodes (snd (remove cat_car_can "cat"))).
Proof.
  destruct remove_absent_is_noop as (H1 & _ & H3).
  assert (reachable cat_car_can) as H by (unfold cat_car_can; repeat constructor).
  split.
  - split; [reflexivity|]. apply (H1 cat_car_can "ca"). reflexivity.
  - split; [exact H|]. apply (H3 cat_car_can "cat" H).
Defined.

(** C9.  The height reported by [stats] is the largest number of edges from
    the root to a node: no path from the root is longer, and some path is
    that long.  The empty trie has height 0, and after inserting one word
    of length [L] into the empty trie the height is [L]. *)
Theorem stats_height_is_max_depth :
  (forall t path n,
     descend (root t) path = Some n ->
     Z.of_nat (String.length path) <= snd (fst (stats t))) /\
  (forall t, exists path n,
     descend (root t) path = Some n /\
     Z.of_nat (String.length path) = snd (fst (stats t))) /\
  snd (fst (stats Trie_init)) = 0 /\
  (forall word fr,
     snd (fst (stats (insert Trie_init word fr))) = Z.of_nat (String.length word)).
Proof.
  split; [|split; [|split]].
  - intros t path n. apply descend_length_le.
  - intros t. apply descend_length_max.
  - reflexivity.
  - intros word fr. simpl. rewrite insert_root. apply get_height_insert_init.
Qed.

Lemma stats_height_is_max_depth_witness :
  descend (root cat_car_can) "ca" =
    Some (mkNode {[ "n"%char := mkNode ∅ true 3%Q;
                    "r"%char := mkNode ∅ true 5%Q;
                    "t"%char := mkNode ∅ true 5%Q ]} false 0%Q) /\
  Z.of_nat (String.length "ca") <= snd (fst (stats cat_car_can)).
Proof.
  assert (descend (root cat_car_can) "ca" =
    Some (mkNode {[ "n"%char := mkNode ∅ true 3%Q;
                    "r"%char := mkNode ∅ true 5%Q;
                    "t"%char := mkNode ∅ true 5%Q ]} false 0%Q)) as H
    by (vm_compute; reflexivity).
  split; [exact H|].
  apply (proj1 stats_height_is_max_depth cat_car_can "ca" _ H).
Defined.

Lemma In_firstn {A} (x : A) n l : In x (firstn n l) -> In x l.
Proof.
  intros H. rewrite <- (firstn_skipn n l). apply in_app_iff. by left.
Qed.

Lemma NoDup_firstn {A} n (l : list A) : NoDup l -> NoDup (firstn n l).
Proof.
  intros H. rewrite <- (firstn_skipn n l) in H. by apply NoDup_app in H as [? _].
Qed.

(** C10.  For every trie, prefix [P] and [k >= 0]: each word returned by
    [complete(P, k)] starts with [P] and is contained in the trie, no word
    is returned twice, and the number of words returned is the smaller of
    [k] and the number of stored words that start with [P] (counted by any
    duplicate-free list [ws] of exactly those words). *)
Theorem complete_sound_distinct_counted t prefix k :
  0 <= k ->
  (forall word, In word (complete t prefix k) ->
     String.prefix prefix word = true /\ contains t word = true) /\
  NoDup (complete t prefix k) /\
  (forall ws : list string,
     NoDup ws ->
     (forall word, In word ws <->
        String.prefix prefix word = true /\ contains t word = true) ->
     Z.of_nat (length (complete t prefix k)) = Z.min k (Z.of_nat (length ws))).
Proof.
  intros Hk.
  destruct (complete_ranking t prefix) as (ranking & Hin & _ & Hnd & Hc).
  rewrite Hc, slice_to_nonneg by done.
  assert (forall word, In word (map snd ranking) <->
            String.prefix prefix word = true /\ contains t word = true) as Hwords.
  { intros word. rewrite in_map_iff, stored_weight_of. split.
    - intros ([fr w] & <- & H%Hin). simpl. destruct H. eauto.
    - intros [Hp [fr Hw]]. exists (fr, word). split; [done|]. by apply Hin. }
  split; [|split].
  - intros word (x & <- & Hx%In_firstn)%in_map_iff.
    apply Hwords, in_map_iff. eauto.
  - rewrite <- firstn_map. by apply NoDup_firstn.
  - intros ws Hws Hiff.
    assert (length ranking = length ws) as Hlen.
    { rewrite <- (length_map snd ranking). apply Permutation_length.
      apply NoDup_Permutation; [done..|].
      intros w. rewrite !list_elem_of_In, Hwords, Hiff. done. }
    rewrite length_map, length_firstn, Hlen. lia.
Qed.

Lemma cat_car_can_words word :
  In word ["can"; "car"; "cat"] <->
  String.prefix "ca" word = true /\ contains cat_car_can word = true.
Proof.
  split.
  - intros [<-|[<-|[<-|[]]]]; by vm_compute.
  - intros [Hp [fr Hw%In_items]%stored_weight_of].
    vm_compute in Hw.
    destruct Hw as [[= <- _]|[[= <- _]|[[= <- _]|[]]]]; simpl; tauto.
Qed.

Lemma complete_sound_distinct_counted_witness :
  0 <= 2 /\
  NoDup (complete cat_car_can "ca" 2) /\
  Z.of_nat (length (complete cat_car_can "ca" 2)) =
    Z.min 2 (Z.of_nat (length ["can"; "car"; "cat"])).
Proof.
  assert (0 <= 2) as Hk by lia.
  destruct (complete_sound_distinct_counted cat_car_can "ca" 2 Hk)
    as (_ & Hnd & Hlen).
  split; [exact Hk|]. split; [exact Hnd|].
  apply Hlen.
  - compute_done.
  - apply cat_car_can_words.
Defined.

(** ** Further properties of insertion *)

Lemma insert_loop_insert_node node word fr cnt :
  fst (insert_loop node word fr cnt) = insert_node node word fr.
Proof. apply insert_loop_node. Qed.

Lemma insert_node_nil node fr :
  insert_node node EmptyString fr = mkNode (children node) true fr.
Proof. done. Qed.

Lemma insert_node_cons node c rest fr :
  insert_node node (String c rest) fr =
  mkNode (<[c := insert_node (default TrieNode_init (children node !! c)) rest fr]>
            (children node))
         (is_word node) (freq node).
Proof.
  unfold insert_node; simpl.
  destruct (children node !! c) as [child|]; simpl.
  - by destruct (insert_loop child rest fr (0, 0)).
  - rewrite <- (insert_loop_node TrieNode_init rest fr (0, 0 + 1) (0, 0)).
    by destruct (insert_loop TrieNode_init rest fr (0, 0 + 1)).
Qed.

Lemma insert_root_node t word fr :
  root (insert t word fr) = insert_node (root t) word fr.
Proof. by rewrite insert_root, insert_loop_insert_node. Qed.

Lemma entry_init word : entry TrieNode_init word = None.
Proof. by apply entry_dead. Qed.

(** Insertion does not touch the entry of any other word. *)
Lemma insert_node_other node word fr other :
  other <> word -> entry (insert_node node word fr) other = entry node other.
Proof.
  revert node other. induction word as [|c w IH]; intros node other Hne.
  - rewrite insert_node_nil. by destruct other.
  - rewrite insert_node_cons. destruct other as [|c' o]; [done|].
    unfold entry; simpl. destruct (decide (c' = c)) as [->|Hcc].
    + rewrite lookup_insert_eq. assert (o <> w) as Ho by congruence.
      specialize (IH (default TrieNode_init (children node !! c)) o Ho).
      unfold entry in IH. rewrite IH.
      destruct (children node !! c) as [child|]; simpl; [done|].
      apply entry_init.
    + by rewrite lookup_insert_ne.
Qed.

(** Insertion keeps every path of the tree. *)
Lemma insert_node_keeps_paths node word fr path :
  is_Some (descend node path) -> is_Some (descend (insert_node node word fr) path).
Proof.
  revert node path. induction word as [|c w IH]; intros node path.
  - rewrite insert_node_nil. destruct path; simpl; eauto.
  - rewrite insert_node_cons. destruct path as [|c' p]; simpl; [eauto|].
    destruct (decide (c' = c)) as [->|Hcc].
    + rewrite lookup_insert_eq.
      destruct (children node !! c) as [child|]; simpl; [apply IH|].
      by intros [].
    + by rewrite lookup_insert_ne.
Qed.

(** The path of the inserted word exists afterwards. *)
Lemma insert_node_path node word fr :
  is_Some (descend (insert_node node word fr) word).
Proof.
  destruct (descend_insert_loop_same node word fr (0, 0)) as (n & Hn & _).
  unfold insert_node. rewrite Hn. eauto.
Qed.

(** The node counter grows by at most one per symbol, and not at all when
    the path is already there. *)
Lemma insert_loop_nodes_bounds node word fr cnt :
  snd cnt <= snd (snd (insert_loop node word fr cnt)) /\
  snd (snd (insert_loop node word fr cnt)) <= snd cnt + Z.of_nat (String.length word) /\
  (is_Some (descend node word) -> snd (snd (insert_loop node word fr cnt)) = snd cnt).
Proof.
  revert node cnt. induction word as [|c w IH]; intros node cnt.
  - simpl. destruct (is_word node); simpl; lia.
  - cbn [insert_loop descend String.length].
    destruct (children node !! c) as [child|].
    + specialize (IH child cnt).
      destruct (insert_loop child w fr cnt) as [child' cnt2]; simpl in *.
      destruct IH as (I1 & I2 & I3). split; [lia|]. split; [lia|]. exact I3.
    + specialize (IH TrieNode_init (cnt.1, cnt.2 + 1)).
      destruct (insert_loop TrieNode_init w fr (cnt.1, cnt.2 + 1)) as [child' cnt2];
        simpl in *.
      destruct IH as (I1 & I2 & I3). split; [lia|]. split; [lia|]. by intros [].
Qed.

(** Below a node without children every symbol of the word costs a node. *)
Lemma insert_loop_nodes_fresh word fr cnt :
  snd (snd (insert_loop TrieNode_init word fr cnt)) =
  snd cnt + Z.of_nat (String.length word).
Proof.
  revert cnt. induction word as [|c w IH]; intros cnt.
  - simpl. lia.
  - simpl. rewrite lookup_empty.
    specialize (IH (cnt.1, cnt.2 + 1)).
    destruct (insert_loop TrieNode_init w fr (cnt.1, cnt.2 + 1)) as [child' cnt2];
      simpl in *. lia.
Qed.

(** Inserting a word over itself: the second weight wins, nothing else moves. *)
Lemma insert_loop_twice node word f1 f2 cnt :
  insert_loop (fst (insert_loop node word f1 cnt)) word f2
              (snd (insert_loop node word f1 cnt)) =
  insert_loop node word f2 cnt.
Proof.
  revert node cnt. induction word as [|c w IH]; intros node cnt.
  - simpl. by destruct (is_word node).
  - cbn [insert_loop]. destruct (children node !! c) as [child|].
    + specialize (IH child cnt).
      destruct (insert_loop child w f1 cnt) as [c1 k1]; simpl in *.
      rewrite lookup_insert_eq, IH.
      destruct (insert_loop child w f2 cnt) as [c2 k2].
      by rewrite insert_insert_eq.
    + specialize (IH TrieNode_init (cnt.1, cnt.2 + 1)).
      destruct (insert_loop TrieNode_init w f1 (cnt.1, cnt.2 + 1)) as [c1 k1];
        simpl in *.
      rewrite lookup_insert_eq, IH.
      destruct (insert_loop TrieNode_init w f2 (cnt.1, cnt.2 + 1)) as [c2 k2].
      by rewrite insert_insert_eq.
Qed.

(** Inserting two different words gives the same tree in either order. *)
Lemma insert_node_comm node w1 f1 w2 f2 :
  w1 <> w2 ->
  insert_node (insert_node node w1 f1) w2 f2 =
  insert_node (insert_node node w2 f2) w1 f1.
Proof.
  revert node w2. induction w1 as [|c1 r1 IH]; intros node w2 Hne.
  - destruct w2 as [|c2 r2]; [done|].
    by rewrite insert_node_nil, !insert_node_cons, insert_node_nil.
  - destruct w2 as [|c2 r2].
    + by rewrite insert_node_nil, !insert_node_cons, insert_node_nil.
    + rewrite !insert_node_cons; simpl.
      destruct (decide (c1 = c2)) as [->|Hc].
      * rewrite !lookup_insert_eq, !insert_insert_eq; simpl.
        rewrite IH by congruence. done.
      * rewrite !lookup_insert_ne by done.
        by rewrite insert_insert_ne.
Qed.

(** ** Further properties of removal *)

(** The word counter drops by one exactly when the word was stored. *)
Lemma _remove_words node word cnt :
  fst (snd (_remove node word cnt)) =
  fst cnt - (if stored node word then 1 else 0).
Proof.
  revert node cnt. induction word as [|c w IH]; intros node cnt; unfold stored; simpl.
  - destruct (is_word node); simpl; lia.
  - destruct (children node !! c) as [child|]; simpl; [|lia].
    specialize (IH child cnt). unfold stored in IH.
    destruct (_remove child w cnt) as [[sd child'] cnt1]; simpl in *.
    by destruct sd.
Qed.

(** The node counter drops by at most one per symbol. *)
Lemma _remove_nodes_bounds node word cnt :
  snd cnt - Z.of_nat (String.length word) <= snd (snd (_remove node word cnt)) /\
  snd (snd (_remove node word cnt)) <= snd cnt.
Proof.
  revert node cnt. induction word as [|c w IH]; intros node cnt; simpl.
  - destruct (is_word node); simpl; lia.
  - destruct (children node !! c) as [child|]; simpl; [|lia].
    specialize (IH child cnt).
    destruct (_remove child w cnt) as [[sd child'] cnt1]; simpl in *.
    destruct sd; simpl; lia.
Qed.

(** Removal creates no path. *)
Lemma _remove_paths node word cnt path :
  is_Some (descend (snd (fst (_remove node word cnt))) path) ->
  is_Some (descend node path).
Proof.
  revert node cnt path. induction word as [|c w IH]; intros node cnt path; simpl.
  - destruct (is_word node); [|done]. by destruct path.
  - destruct (children node !! c) as [child|] eqn:Hc; [|done].
    specialize (IH child cnt).
    destruct (_remove child w cnt) as [[sd child'] cnt1]; simpl in *.
    destruct sd; simpl.
    + destruct path as [|c' p]; simpl; [eauto|].
      destruct (decide (c' = c)) as [->|Hcc].
      * rewrite lookup_delete_eq. by intros [].
      * by rewrite lookup_delete_ne.
    + destruct path as [|c' p]; simpl; [eauto|].
      destruct (decide (c' = c)) as [->|Hcc].
      * rewrite lookup_insert_eq, Hc. apply IH.
      * by rewrite lookup_insert_ne.
Qed.

(** In a pruned subtree every live node has a stored word below it. *)
Lemma live_has_word node :
  pruned node -> live node -> exists word, stored node word = true.
Proof.
  induction node as [node IH] using TrieNode_children_ind.
  intros Hp [Hw|Hc].
  - exists EmptyString. done.
  - destruct (map_choose _ Hc) as (c & child & Hch).
    destruct (pruned_child _ _ _ Hp Hch) as [Hpc Hlc].
    destruct (IH c child Hch Hpc Hlc) as [w Hw].
    exists (String c w). unfold stored in *. simpl. by rewrite Hch.
Qed.

Lemma not_live_dead node :
  ~ live node -> children node = ∅ /\ is_word node = false.
Proof.
  intros Hn. split.
  - destruct (decide (children node = ∅)) as [|Hne]; [done|].
    exfalso. apply Hn. by right.
  - destruct (is_word node) eqn:Hw; [|done]. exfalso. apply Hn. by left.
Qed.

Lemma str_length_app a b :
  String.length (a +:+ b) = (String.length a + String.length b)%nat.
Proof. induction a as [|x a IH]; [done|]. rewrite app_cons. simpl. by rewrite IH. Qed.

(** In a pruned tree of positive height a stored word is as long as the
    height. *)
Lemma pruned_height_word node :
  pruned node -> 0 < get_height node ->
  exists word, stored node word = true /\
               Z.of_nat (String.length word) = get_height node.
Proof.
  intros Hp Hh.
  destruct (descend_length_max node) as (p & n & Hd & Hl).
  exists p. split; [|done]. unfold stored. rewrite Hd.
  assert (p <> EmptyString) as Hne.
  { intros ->. simpl in Hl. lia. }
  destruct (Hp p n Hne Hd) as [Hw|Hc]; [done|].
  destruct (map_choose _ Hc) as (c & child & Hch).
  assert (descend node (p +:+ String c "") = Some child) as Hd'.
  { rewrite descend_app, Hd. simpl. by rewrite Hch. }
  apply descend_length_le in Hd'. rewrite str_length_app in Hd'. simpl in Hd'. lia.
Qed.

(** ** Order of the entries gathered by [collect] *)

Lemma ascii_ltb_lt a b :
  Ascii.ltb a b = true <-> (N_of_ascii a < N_of_ascii b)%N.
Proof.
  unfold Ascii.ltb, Ascii.compare. rewrite <- N.compare_lt_iff.
  destruct (N_of_ascii a ?= N_of_ascii b)%N; split; congruence.
Qed.

Lemma ascii_ltb_trans a b c :
  Ascii.ltb a b = true -> Ascii.ltb b c = true -> Ascii.ltb a c = true.
Proof. rewrite !ascii_ltb_lt. lia. Qed.

Lemma ascii_ltb_total a b :
  a <> b -> Ascii.ltb b a = false -> Ascii.ltb a b = true.
Proof.
  intros Hne Hba. apply ascii_ltb_lt.
  destruct (N.lt_total (N_of_ascii a) (N_of_ascii b)) as [H|[H|H]]; [done|..].
  - exfalso. apply Hne.
    by rewrite <- (ascii_N_embedding a), <- (ascii_N_embedding b), H.
  - apply ascii_ltb_lt in H. congruence.
Qed.

Lemma sorted_insert_sorted {B} (x : ascii * B) l :
  StronglySorted key_asc l -> ~ In (fst x) (map fst l) ->
  StronglySorted key_asc (sorted_insert x l).
Proof.
  induction l as [|y l IH]; simpl; intros Hs Hx.
  - repeat constructor.
  - inversion Hs as [|? ? Hs' Hall]; subst.
    destruct (Ascii.ltb (fst y) (fst x)) eqn:Hk.
    + constructor; [apply IH; tauto|].
      apply Forall_forall. intros z Hz%list_elem_of_In.
      apply (Permutation_in _ (sorted_insert_perm x l)) in Hz.
      destruct Hz as [<-|Hz]; [done|].
      rewrite Forall_forall in Hall. by apply Hall, list_elem_of_In.
    + assert (key_asc x y) as Hxy.
      { apply ascii_ltb_total; [intros He; apply Hx; by left|done]. }
      constructor; [done|]. constructor; [done|].
      apply Forall_forall. intros z Hz. rewrite Forall_forall in Hall.
      unfold key_asc in *. eapply ascii_ltb_trans; [exact Hxy|by apply Hall].
Qed.

Lemma sorted_by_key_sorted {B} (l : list (ascii * B)) :
  NoDup (map fst l) -> StronglySorted key_asc (sorted_by_key l).
Proof.
  induction l as [|x l IH]; simpl; intros Hnd.
  - constructor.
  - apply NoDup_cons in Hnd as [Hx Hnd].
    apply sorted_insert_sorted; [by apply IH|].
    intros Hin. apply Hx, list_elem_of_In.
    apply in_map_iff in Hin as (y & Hy & Hin).
    apply (proj1 (In_sorted_by_key _ _)) in Hin.
    apply in_map_iff. eauto.
Qed.

Lemma string_compare_app p a b :
  String.compare (p +:+ a) (p +:+ b) = String.compare a b.
Proof.
  induction p as [|x p IH]; [done|]. rewrite !app_cons. simpl.
  unfold Ascii.compare. by rewrite N.compare_refl.
Qed.

Lemma word_lt_app p a b : word_lt (p +:+ a) (p +:+ b) <-> word_lt a b.
Proof. unfold word_lt, String.ltb. by rewrite string_compare_app. Qed.

Lemma word_lt_extend p c s : word_lt p (p +:+ String c s).
Proof.
  rewrite <- (str_app_nil_r p) at 1. by apply word_lt_app.
Qed.

Lemma word_lt_branch p c1 s1 c2 s2 :
  Ascii.ltb c1 c2 = true -> word_lt (p +:+ String c1 s1) (p +:+ String c2 s2).
Proof.
  intros H. apply word_lt_app. unfold word_lt, String.ltb; simpl.
  unfold Ascii.ltb in H. by destruct (Ascii.compare c1 c2).
Qed.

Lemma StronglySorted_app {A} (R : A -> A -> Prop) l1 l2 :
  StronglySorted R l1 -> StronglySorted R l2 ->
  (forall x y, In x l1 -> In y l2 -> R x y) ->
  StronglySorted R (l1 ++ l2).
Proof.
  induction l1 as [|a l1 IH]; simpl; intros H1 H2 Hc; [done|].
  inversion H1 as [|? ? Hs Hall]; subst. constructor.
  - apply IH; [done..|]. intros x y Hx. apply Hc. by right.
  - apply Forall_app. split; [done|].
    apply Forall_forall. intros y Hy%list_elem_of_In. apply Hc; [by left|done].
Qed.

Lemma StronglySorted_concat_keyed {A} (R : A -> A -> Prop)
    (l : list (ascii * list A)) :
  StronglySorted key_asc l ->
  (forall c sub, In (c, sub) l -> StronglySorted R sub) ->
  (forall c1 sub1 c2 sub2 x y,
     In (c1, sub1) l -> In (c2, sub2) l -> Ascii.ltb c1 c2 = true ->
     In x sub1 -> In y sub2 -> R x y) ->
  StronglySorted R (concat (map snd l)).
Proof.
  induction l as [|[c sub] l IH]; simpl; intros Hs Hsub Hcross.
  - constructor.
  - inversion Hs as [|? ? Hs' Hall]; subst.
    apply StronglySorted_app.
    + apply (Hsub c). by left.
    + apply IH; [done|..].
      * intros c' sub' Hin. apply (Hsub c'). by right.
      * intros c1 sub1 c2 sub2 x y H1 H2. apply Hcross; by right.
    + intros x y Hx Hy.
      apply in_concat in Hy as (sub' & Hsub' & Hy).
      apply in_map_iff in Hsub' as ([c' sub''] & <- & Hent). simpl in Hy.
      rewrite Forall_forall in Hall.
      apply (Hcross c sub c' sub''); [by left|by right| |done..].
      apply (Hall (c', sub'')). by apply list_elem_of_In.
Qed.

(** [collect] lists its entries in ascending order of the words. *)
Lemma collect_sorted node path : StronglySorted entry_lt (collect node path).
Proof.
  revert path. induction node as [node IH] using TrieNode_children_ind.
  intros path. rewrite collect_eq.
  assert (forall c sub x,
             In (c, sub) (sorted_by_key (child_entries node path)) ->
             In x sub -> exists s, snd x = path +:+ String c s) as Hform.
  { intros c sub [fr w] (child & Hc & ->)%In_child_entries Hin.
    apply In_collect in Hin as (s & n & -> & _). exists s. simpl.
    by rewrite str_app_assoc, app_cons. }
  apply StronglySorted_app.
  - destruct (is_word node); repeat constructor.
  - apply StronglySorted_concat_keyed.
    + apply sorted_by_key_sorted.
      rewrite <- (sorted_by_key_perm (child_entries node path)).
      apply child_entries_keys.
    + intros c sub (child & Hc & ->)%In_child_entries. by apply (IH c child).
    + intros c1 sub1 c2 sub2 x y H1 H2 Hlt Hx Hy.
      destruct (Hform _ _ _ H1 Hx) as [s1 E1].
      destruct (Hform _ _ _ H2 Hy) as [s2 E2].
      unfold entry_lt. rewrite E1, E2. by apply word_lt_branch.
  - intros x y Hx Hy. destruct (is_word node); [|done].
    destruct Hx as [<-|[]].
    apply in_concat in Hy as (sub & Hsub & Hy).
    apply in_map_iff in Hsub as ([c sub'] & <- & Hent). simpl in Hy.
    destruct (Hform _ _ _ Hent Hy) as [s E].
    unfold entry_lt; simpl. rewrite E. apply word_lt_extend.
Qed.

Lemma StronglySorted_map {A B} (f : A -> B) (R : B -> B -> Prop) l :
  StronglySorted (fun x y => R (f x) (f y)) l -> StronglySorted R (map f l).
Proof.
  induction 1 as [|a l Hs IH Hall]; simpl; constructor; [done|].
  apply Forall_map. exact Hall.
Qed.

(** ** Number of entries *)

Lemma length_concat_sorted_insert {A} (x : ascii * list A) l :
  length (concat (map snd (sorted_insert x l))) =
  (length (snd x) + length (concat (map snd l)))%nat.
Proof.
  induction l as [|y l IH]; simpl.
  - rewrite length_app. simpl. lia.
  - destruct (Ascii.ltb (fst y) (fst x)); simpl; rewrite ?length_app, ?IH; lia.
Qed.

Lemma length_collect node path : length (collect node path) = word_total node.
Proof.
  revert path. induction node as [node IH] using TrieNode_children_ind.
  intros path. rewrite collect_eq, word_total_eq, length_app. f_equal.
  { by destruct (is_word node). }
  rewrite child_entries_list. unfold sum_over. rewrite map_fold_foldr.
  assert (forall x, In x (map_to_list (children node)) ->
            forall p, length (collect (snd x) p) = word_total (snd x)) as Hall.
  { intros [c child] Hin%list_elem_of_In%elem_of_map_to_list p. by apply (IH c). }
  induction (map_to_list (children node)) as [|[c child] l IHl]; simpl; [done|].
  rewrite length_concat_sorted_insert; simpl.
  rewrite (Hall (c, child)) by (by left); simpl.
  f_equal. apply IHl. intros x Hx. apply Hall. by right.
Qed.

(** ** Further lemmas on whole tries *)

Lemma insert_loop_nodes_missing node word fr cnt :
  snd (snd (insert_loop node word fr cnt)) = snd cnt + Z.of_nat (missing node word).
Proof.
  revert node cnt. induction word as [|c w IH]; intros node cnt.
  - simpl. destruct (is_word node); simpl; lia.
  - cbn [insert_loop missing]. destruct (children node !! c) as [child|].
    + specialize (IH child cnt).
      by destruct (insert_loop child w fr cnt) as [child' cnt2].
    + pose proof (insert_loop_nodes_fresh w fr (cnt.1, cnt.2 + 1)) as H.
      destruct (insert_loop TrieNode_init w fr (cnt.1, cnt.2 + 1)) as [child' cnt2].
      simpl in *. lia.
Qed.

Lemma missing_le node word : (missing node word <= String.length word)%nat.
Proof.
  revert node. induction word as [|c w IH]; intros node; simpl; [done|].
  destruct (children node !! c) as [child|]; [|done].
  specialize (IH child). lia.
Qed.

Lemma missing_path node word :
  is_Some (descend node word) <-> missing node word = 0%nat.
Proof.
  revert node. induction word as [|c w IH]; intros node; simpl.
  - split; eauto.
  - destruct (children node !! c) as [child|]; [apply IH|].
    split; [by intros []|done].
Qed.

Lemma insert_counts t word fr :
  _nodes (insert t word fr) =
    _nodes t + Z.of_nat (node_total (root (insert t word fr))) -
    Z.of_nat (node_total (root t)) /\
  _words (insert t word fr) =
    _words t + Z.of_nat (word_total (root (insert t word fr))) -
    Z.of_nat (word_total (root t)).
Proof.
  rewrite insert_root, insert_nodes, insert_words.
  pose proof (insert_loop_counts (root t) word fr (_words t, _nodes t)) as [H1 H2].
  simpl in *. lia.
Qed.

Lemma weight_of_insert_other t word fr other :
  other <> word -> weight_of (insert t word fr) other = weight_of t other.
Proof.
  intros Hne. unfold weight_of. rewrite insert_root_node.
  by apply insert_node_other.
Qed.

(** ** Further properties of the operations *)

(** X1.  [insert(W, F)] leaves every other word as it was: for [V] different
    from [W], [contains(V)] and the stored weight of [V] are unchanged. *)
Theorem insert_keeps_other_words t word fr other :
  other <> word ->
  contains (insert t word fr) other = contains t other /\
  weight_of (insert t word fr) other = weight_of t other.
Proof.
  intros Hne. by rewrite !contains_weight_of, weight_of_insert_other.
Qed.

Lemma insert_keeps_other_words_witness :
  "car" <> "cab" /\
  contains (insert cat_car_can "cab" 9%Q) "car" = contains cat_car_can "car" /\
  weight_of (insert cat_car_can "cab" 9%Q) "car" = weight_of cat_car_can "car".
Proof.
  split; [done|]. apply (insert_keeps_other_words cat_car_can "cab" 9%Q "car").
  done.
Defined.

(** X2.  [insert] never takes a node away: every path that exists before an
    insertion exists after it, and the path of the inserted word exists
    after it. *)
Theorem insert_keeps_paths t word fr :
  (forall path, is_Some (descend (root t) path) ->
                is_Some (descend (root (insert t word fr)) path)) /\
  is_Some (descend (root (insert t word fr)) word).
Proof.
  rewrite insert_root_node. split.
  - intros path. apply insert_node_keeps_paths.
  - apply insert_node_path.
Qed.

Lemma insert_keeps_paths_witness :
  is_Some (descend (root cat_car_can) "ca") /\
  is_Some (descend (root (insert cat_car_can "dog" 1%Q)) "ca").
Proof.
  assert (is_Some (descend (root cat_car_can) "ca")) as H by (vm_compute; eauto).
  split; [exact H|].
  apply (proj1 (insert_keeps_paths cat_car_can "dog" 1%Q) "ca" H).
Defined.

(** X3.  The height reported by [stats] never drops on an insertion, and
    after [insert(W, F)] it is at least the length of [W]. *)
Theorem insert_height_lower_bounds t word fr :
  snd (fst (stats t)) <= snd (fst (stats (insert t word fr))) /\
  Z.of_nat (String.length word) <= snd (fst (stats (insert t word fr))).
Proof.
  simpl. rewrite insert_root_node. split.
  - destruct (descend_length_max (root t)) as (p & n & Hd & <-).
    destruct (insert_node_keeps_paths (root t) word fr p) as [n' Hn']; [eauto|].
    by eapply descend_length_le.
  - destruct (insert_node_path (root t) word fr) as [n Hn].
    by eapply descend_length_le.
Qed.

(** X4.  [insert(W, F)] adds to [_nodes] one for each symbol of [W] beyond
    the longest path of [W] already in the tree: never less than nothing,
    never more than the length of [W], and nothing when the whole path of
    [W] is there (for instance when [W] is stored or is a prefix of a stored
    word). *)
Theorem insert_node_count t word fr :
  _nodes (insert t word fr) = _nodes t + Z.of_nat (missing (root t) word) /\
  _nodes t <= _nodes (insert t word fr) <= _nodes t + Z.of_nat (String.length word) /\
  (is_Some (descend (root t) word) -> _nodes (insert t word fr) = _nodes t).
Proof.
  rewrite insert_nodes, insert_loop_nodes_missing; simpl.
  pose proof (missing_le (root t) word).
  split; [done|]. split; [lia|].
  intros H0%missing_path. rewrite H0. lia.
Qed.

Lemma insert_node_count_witness :
  is_Some (descend (root cat_car_can) "ca") /\
  _nodes (insert cat_car_can "ca" 1%Q) = _nodes cat_car_can.
Proof.
  assert (is_Some (descend (root cat_car_can) "ca")) as H by (vm_compute; eauto).
  split; [exact H|].
  apply (proj2 (proj2 (insert_node_count cat_car_can "ca" 1%Q)) H).
Defined.

(** X5.  Inserting a word twice in a row is the same as inserting it once
    with the second weight: the whole state, counters included, is the
    same. *)
Theorem insert_twice_is_last t word f1 f2 :
  insert (insert t word f1) word f2 = insert t word f2.
Proof.
  unfold insert at 1 3.
  rewrite insert_root, insert_words, insert_nodes.
  rewrite <- surjective_pairing, insert_loop_twice. done.
Qed.

(** X6.  Insertions of two different words commute: either order gives the
    same tree and the same counters. *)
Theorem insert_commutes t w1 f1 w2 f2 :
  w1 <> w2 ->
  insert (insert t w1 f1) w2 f2 = insert (insert t w2 f2) w1 f1.
Proof.
  intros Hne.
  assert (root (insert (insert t w1 f1) w2 f2) =
          root (insert (insert t w2 f2) w1 f1)) as Hroot.
  { rewrite !insert_root_node. by apply insert_node_comm. }
  destruct (insert_counts (insert t w1 f1) w2 f2) as [N12 W12].
  destruct (insert_counts t w1 f1) as [N1 W1].
  destruct (insert_counts (insert t w2 f2) w1 f1) as [N21 W21].
  destruct (insert_counts t w2 f2) as [N2 W2].
  rewrite Hroot in N12, W12.
  destruct (insert (insert t w1 f1) w2 f2) as [r a b].
  destruct (insert (insert t w2 f2) w1 f1) as [r' a' b'].
  simpl in *. subst r'. f_equal; lia.
Qed.

Lemma insert_commutes_witness :
  "cat" <> "car" /\
  insert (insert Trie_init "cat" 5%Q) "car" 4%Q =
  insert (insert Trie_init "car" 4%Q) "cat" 5%Q.
Proof.
  split; [done|]. apply (insert_commutes Trie_init "cat" 5%Q "car" 4%Q). done.
Defined.

(** X7.  [remove(W)] takes exactly one from [_words] when [W] is stored and
    nothing otherwise; it never adds to [_nodes] and takes at most one per
    symbol of [W]. *)
Theorem remove_counters t word :
  _words (snd (remove t word)) = _words t - (if contains t word then 1 else 0) /\
  _nodes t - Z.of_nat (String.length word) <= _nodes (snd (remove t word)) /\
  _nodes (snd (remove t word)) <= _nodes t.
Proof.
  rewrite remove_words, remove_nodes, _remove_words.
  split; [done|]. apply (_remove_nodes_bounds (root t) word (_words t, _nodes t)).
Qed.

(** X8.  [remove] creates nothing: every path that exists after a removal
    existed before it, so the height reported by [stats] does not grow. *)
Theorem remove_creates_no_path t word :
  (forall path, is_Some (descend (root (snd (remove t word))) path) ->
                is_Some (descend (root t) path)) /\
  snd (fst (stats (snd (remove t word)))) <= snd (fst (stats t)).
Proof.
  simpl. rewrite remove_root.
  assert (forall path,
            is_Some (descend (snd (fst (_remove (root t) word (_words t, _nodes t)))) path) ->
            is_Some (descend (root t) path)) as Hp.
  { intros path. apply _remove_paths. }
  split; [exact Hp|].
  destruct (descend_length_max
              (snd (fst (_remove (root t) word (_words t, _nodes t)))))
    as (p & n & Hd & <-).
  destruct (Hp p) as [n' Hn']; [eauto|]. by eapply descend_length_le.
Qed.

Lemma remove_creates_no_path_witness :
  is_Some (descend (root (snd (remove cat_car_can "cat"))) "car") /\
  is_Some (descend (root cat_car_can) "car").
Proof.
  assert (is_Some (descend (root (snd (remove cat_car_can "cat"))) "car")) as H
    by (vm_compute; eauto).
  split; [exact H|].
  apply (proj1 (remove_creates_no_path cat_car_can "cat") "car" H).
Defined.

(** X9.  In a reachable state [remove(W)] returns [True] exactly when [W] is
    stored and no other word is: the value returned is the pruning signal
    of the root, which is raised when the removal empties the trie. *)
Theorem remove_true_iff_last_word t word :
  reachable t ->
  fst (remove t word) = true <->
  contains t word = true /\
  forall other, other <> word -> contains t other = false.
Proof.
  intros Hr. rewrite remove_true_iff.
  destruct (reachable_invariant _ (reachable_remove t word Hr)) as [Hp _].
  split.
  - intros (Hc & Hd1 & Hd2). split; [done|]. intros other Hne.
    rewrite contains_weight_of, <- (weight_of_remove_other t word other Hne).
    unfold weight_of. by rewrite entry_dead.
  - intros [Hc Hnone]. split; [done|]. apply not_live_dead. intros Hl.
    destruct (live_has_word _ Hp Hl) as [v Hv].
    destruct (decide (v = word)) as [->|Hne].
    + pose proof (contains_remove_same t word) as H.
      rewrite contains_stored in H. congruence.
    + specialize (Hnone v Hne).
      rewrite contains_weight_of, <- (weight_of_remove_other t word v Hne),
        <- contains_weight_of, contains_stored in Hnone.
      congruence.
Qed.

Lemma remove_true_iff_last_word_witness :
  reachable (insert Trie_init "cat" 5%Q) /\
  (fst (remove (insert Trie_init "cat" 5%Q) "cat") = true <->
   contains (insert Trie_init "cat" 5%Q) "cat" = true /\
   forall other, other <> "cat" ->
                 contains (insert Trie_init "cat" 5%Q) other = false).
Proof.
  assert (reachable (insert Trie_init "cat" 5%Q)) as H by repeat constructor.
  split; [exact H|].
  apply (remove_true_iff_last_word (insert Trie_init "cat" 5%Q) "cat" H).
Defined.

(** X10.  Inserting a word that is not stored and removing it at once gives
    back the contents of the trie: every word has the membership and the
    weight it had. *)
Theorem insert_then_remove_restores_contents t word fr :
  contains t word = false ->
  forall other,
    weight_of (snd (remove (insert t word fr) word)) other = weight_of t other /\
    contains (snd (remove (insert t word fr) word)) other = contains t other.
Proof.
  intros Hc other.
  assert (weight_of (snd (remove (insert t word fr) word)) other =
          weight_of t other) as Hw.
  { destruct (decide (other = word)) as [->|Hne].
    - pose proof (contains_remove_same (insert t word fr) word) as H.
      rewrite contains_weight_of in H, Hc.
      destruct (weight_of (snd (remove (insert t word fr) word)) word),
        (weight_of t word); done.
    - by rewrite weight_of_remove_other, weight_of_insert_other. }
  split; [done|]. by rewrite !contains_weight_of, Hw.
Qed.

Lemma insert_then_remove_restores_contents_witness :
  contains cat_car_can "ca" = false /\
  weight_of (snd (remove (insert cat_car_can "ca" 7%Q) "ca")) "cat" =
    weight_of cat_car_can "cat" /\
  contains (snd (remove (insert cat_car_can "ca" 7%Q) "ca")) "cat" =
    contains cat_car_can "cat".
Proof.
  assert (contains cat_car_can "ca" = false) as H by reflexivity.
  split; [exact H|].
  apply (insert_then_remove_restores_contents cat_car_can "ca" 7%Q H "cat").
Defined.

(** X11.  [items()] lists exactly the stored words, each once and with its
    stored weight. *)
Theorem items_exact t :
  (forall word fr, In (word, fr) (items t) <-> weight_of t word = Some fr) /\
  (forall word, In word (map fst (items t)) <-> contains t word = true) /\
  NoDup (map fst (items t)).
Proof.
  split; [|split].
  - intros word fr. apply In_items.
  - intros word. rewrite in_map_iff, stored_weight_of. split.
    + intros ([w fr] & <- & H%In_items). eauto.
    + intros [fr H%In_items]. by exists (word, fr).
  - unfold items. rewrite map_map; simpl. apply NoDup_collect_words.
Qed.

(** X12.  [items()] returns the words in strictly ascending order, as
    Python compares strings. *)
Theorem items_sorted t : StronglySorted word_lt (map fst (items t)).
Proof.
  unfold items. rewrite map_map; simpl.
  apply StronglySorted_map. apply collect_sorted.
Qed.

(** X13.  In a reachable state the word counter reported by [stats] is the
    number of entries of [items()]. *)
Theorem items_length_is_word_count t :
  reachable t -> Z.of_nat (length (items t)) = fst (fst (stats t)).
Proof.
  intros Hr. destruct (reachable_invariant t Hr) as (_ & _ & Hw).
  simpl. rewrite Hw. unfold items. by rewrite length_map, length_collect.
Qed.

Lemma items_length_is_word_count_witness :
  reachable (snd (remove cat_car_can "car")) /\
  Z.of_nat (length (items (snd (remove cat_car_can "car")))) =
  fst (fst (stats (snd (remove cat_car_can "car")))).
Proof.
  assert (reachable (snd (remove cat_car_can "car"))) as H.
  { unfold cat_car_can. repeat constructor. }
  split; [exact H|]. apply (items_length_is_word_count _ H).
Defined.

(** X14.  The answers of [complete] for growing [k] extend one another: for
    [0 <= k <= k'], [complete(P, k)] is the first [k] words of
    [complete(P, k')]. *)
Theorem complete_is_prefix_of_larger t prefix k k' :
  0 <= k -> k <= k' ->
  complete t prefix k = firstn (Z.to_nat k) (complete t prefix k').
Proof.
  intros Hk Hk'.
  destruct (complete_ranking t prefix) as (ranking & _ & _ & _ & Hc).
  rewrite !Hc, !slice_to_nonneg by lia.
  rewrite firstn_map, firstn_firstn. by rewrite Nat.min_l by lia.
Qed.

Lemma complete_is_prefix_of_larger_witness :
  0 <= 1 /\ 1 <= 3 /\
  complete cat_car_can "ca" 1 = firstn (Z.to_nat 1) (complete cat_car_can "ca" 3).
Proof.
  split; [lia|]. split; [lia|].
  apply (complete_is_prefix_of_larger cat_car_can "ca" 1 3); lia.
Defined.

(** X15.  For [k >= 1], [complete(P, k)] is empty exactly when no stored
    word starts with [P]; this covers the prefix whose path is missing. *)
Theorem complete_nil_iff t prefix k :
  1 <= k ->
  complete t prefix k = [] <->
  forall word, String.prefix prefix word = true -> contains t word = false.
Proof.
  intros Hk.
  destruct (complete_ranking t prefix) as (ranking & Hin & _ & _ & Hc).
  rewrite Hc, slice_to_nonneg by lia. split.
  - intros Hnil word Hp. destruct (contains t word) eqn:Hcw; [|done].
    apply stored_weight_of in Hcw as [fr Hw].
    assert (In (fr, word) ranking) as Hr by (by apply Hin).
    destruct ranking as [|x r]; [done|].
    destruct (Z.to_nat k) eqn:Hn; [lia|]. done.
  - intros Hnone. destruct ranking as [|[fr w] r]; [by rewrite firstn_nil|].
    assert (In (fr, w) ((fr, w) :: r)) as Hr by (by left).
    apply Hin in Hr as [Hp Hw].
    specialize (Hnone w Hp). rewrite contains_weight_of, Hw in Hnone. done.
Qed.

Lemma complete_nil_iff_witness :
  1 <= 2 /\
  (complete cat_car_can "do" 2 = [] <->
   forall word, String.prefix "do" word = true -> contains cat_car_can word = false).
Proof.
  split; [lia|]. apply (complete_nil_iff cat_car_can "do" 2). lia.
Defined.

(** X16.  For a negative [k] the slice [candidates[:k]] counts from the end:
    [complete(P, k)] is the full ranking (what [complete(P, m)] returns for
    an [m] larger than its own length) without its last [|k|] words. *)
Theorem complete_negative_k_drops_last t prefix k m :
  k < 0 -> Z.of_nat (length (complete t prefix m)) < m ->
  complete t prefix k =
  firstn (Z.to_nat (Z.of_nat (length (complete t prefix m)) + k))
         (complete t prefix m).
Proof.
  intros Hk Hm.
  destruct (complete_ranking t prefix) as (ranking & _ & _ & _ & Hc).
  rewrite !Hc in *. rewrite (slice_to_nonneg ranking m) in * by lia.
  rewrite length_map, length_firstn in Hm.
  rewrite (firstn_all2 (n := Z.to_nat m)) by lia.
  unfold slice_to. rewrite (proj2 (Z.leb_gt 0 k)) by lia.
  rewrite length_map, firstn_map. f_equal. f_equal. lia.
Qed.

Lemma complete_negative_k_drops_last_witness :
  -1 < 0 /\ Z.of_nat (length (complete cat_car_can "ca" 5)) < 5 /\
  complete cat_car_can "ca" (-1) =
  firstn (Z.to_nat (Z.of_nat (length (complete cat_car_can "ca" 5)) + -1))
         (complete cat_car_can "ca" 5).
Proof.
  assert (Z.of_nat (length (complete cat_car_can "ca" 5)) < 5) as H
    by (vm_compute; reflexivity).
  split; [lia|]. split; [exact H|].
  apply (complete_negative_k_drops_last cat_car_can "ca" (-1) 5); [lia|exact H].
Defined.



(** X18.  In a reachable state the height reported by [stats] is the length
    of the longest stored word: no stored word is longer, and when the
    height is positive some stored word is that long. *)
Theorem height_is_longest_word t :
  reachable t ->
  (forall word, contains t word = true ->
     Z.of_nat (String.length word) <= snd (fst (stats t))) /\
  (0 < snd (fst (stats t)) ->
   exists word, contains t word = true /\
                Z.of_nat (String.length word) = snd (fst (stats t))).
Proof.
  intros Hr. destruct (reachable_invariant t Hr) as [Hp _]. simpl. split.
  - intros word Hc. unfold contains in Hc.
    destruct (descend (root t) word) as [n|] eqn:Hd; [|done].
    by eapply descend_length_le.
  - intros Hh. destruct (pruned_height_word _ Hp Hh) as (w & Hs & Hl).
    exists w. by rewrite contains_stored.
Qed.

Lemma height_is_longest_word_witness :
  reachable cat_car_can /\
  (forall word, contains cat_car_can word = true ->
     Z.of_nat (String.length word) <= snd (fst (stats cat_car_can))) /\
  (0 < snd (fst (stats cat_car_can)) ->
   exists word, contains cat_car_can word = true /\
                Z.of_nat (String.length word) = snd (fst (stats cat_car_can))).
Proof.
  assert (reachable cat_car_can) as H by (unfold cat_car_can; repeat constructor).
  split; [exact H|]. apply (height_is_longest_word cat_car_can H).
Defined.

(** X19.  A trie as [Trie()] builds it holds nothing: no word is contained,
    [remove] returns [False] and changes nothing, [complete] is empty for
    every prefix and every [k], [items()] is empty, and [stats()] is
    [(0, 0, 1)]. *)
Theorem empty_trie_behaviour word prefix k :
  contains Trie_init word = false /\
  remove Trie_init word = (false, Trie_init) /\
  complete Trie_init prefix k = [] /\
  items Trie_init = [] /\
  stats Trie_init = (0, 0, 1).
Proof.
  assert (contains Trie_init word = false) as Hc.
  { rewrite contains_stored. apply stored_init. }
  split; [exact Hc|]. split; [by apply remove_absent|]. split; [|done].
  unfold complete. destruct prefix as [|c p]; simpl.
  - rewrite collect_eq. unfold child_entries; simpl. rewrite map_fold_empty.
    simpl. unfold slice_to. by destruct (0 <=? k); rewrite firstn_nil.
  - by rewrite lookup_empty.
Qed.

(** ** What the answers depend on *)

(** A list sorted by a strict order is determined by its members. *)
Lemma sorted_unique {A} (R : A -> A -> Prop) :
  (forall x, ~ R x x) -> (forall x y z, R x y -> R y z -> R x z) ->
  forall l1 l2,
    StronglySorted R l1 -> StronglySorted R l2 ->
    (forall x, In x l1 <-> In x l2) -> l1 = l2.
Proof.
  intros Hirr Htr. induction l1 as [|a l1 IH]; intros [|b l2] H1 H2 Hin.
  - done.
  - exfalso. apply (Hin b). by left.
  - exfalso. apply (Hin a). by left.
  - inversion H1 as [|? ? S1 F1]; inversion H2 as [|? ? S2 F2]; subst.
    rewrite Forall_forall in F1, F2.
    assert (a = b) as ->.
    { destruct (proj1 (Hin a)) as [Hab|Hab]; [by left|done|].
      destruct (proj2 (Hin b)) as [Hba|Hba]; [by left|done|].
      exfalso. apply (Hirr a). apply (Htr a b a).
      - by apply F1, list_elem_of_In.
      - by apply F2, list_elem_of_In. }
    f_equal. apply IH; [done..|]. intros x. split; intros Hx.
    + destruct (proj1 (Hin x)) as [<-|Hx']; [by right| |done].
      exfalso. apply (Hirr b). by apply F1, list_elem_of_In.
    + destruct (proj2 (Hin x)) as [<-|Hx']; [by right| |done].
      exfalso. apply (Hirr b). by apply F2, list_elem_of_In.
Qed.

Lemma word_lt_irrefl w : ~ word_lt w w.
Proof.
  unfold word_lt, String.ltb.
  rewrite <- (str_app_nil_r w), string_compare_app. done.
Qed.

Lemma ranked_before_irrefl a : ~ ranked_before a a.
Proof.
  intros [H|[_ H]]; [by apply Qlt_irrefl in H|by apply word_lt_irrefl in H].
Qed.

(** [complete] looks at nothing but the stored words that start with the
    prefix, and their weights. *)
Lemma complete_ext t1 t2 prefix k :
  (forall word, String.prefix prefix word = true ->
                weight_of t1 word = weight_of t2 word) ->
  complete t1 prefix k = complete t2 prefix k.
Proof.
  intros Heq.
  destruct (complete_ranking t1 prefix) as (r1 & Hin1 & Hs1 & _ & Hc1).
  destruct (complete_ranking t2 prefix) as (r2 & Hin2 & Hs2 & _ & Hc2).
  rewrite Hc1, Hc2. f_equal. f_equal.
  apply (sorted_unique ranked_before);
    [apply ranked_before_irrefl|apply ranked_before_trans|done..|].
  intros [fr w]. rewrite Hin1, Hin2. split; intros [Hp Hw]; split; try done.
  - by rewrite <- Heq.
  - by rewrite Heq.
Qed.

Lemma items_item_sorted t : StronglySorted item_lt (items t).
Proof. unfold items. apply StronglySorted_map. apply collect_sorted. Qed.

Lemma items_ext t1 t2 :
  (forall word, weight_of t1 word = weight_of t2 word) -> items t1 = items t2.
Proof.
  intros Heq. apply (sorted_unique item_lt).
  - intros x. apply word_lt_irrefl.
  - intros x y z. apply string_ltb_trans.
  - apply items_item_sorted.
  - apply items_item_sorted.
  - intros [w fr]. by rewrite !In_items, Heq.
Qed.

(** Removal keeps every path that is not a prefix of the removed word. *)
Lemma _remove_keeps_off_path node word cnt path :
  String.prefix path word = false ->
  is_Some (descend node path) ->
  is_Some (descend (snd (fst (_remove node word cnt))) path).
Proof.
  revert node cnt path. induction word as [|c w IH]; intros node cnt path; simpl.
  - destruct path as [|c' p]; [done|]. intros _.
    by destruct (is_word node).
  - destruct path as [|c' p]; [done|].
    destruct (children node !! c) as [child|] eqn:Hc; [|done].
    pose proof (IH child cnt) as IHc.
    pose proof (_remove_flag_dead child w cnt) as Hdead.
    destruct (_remove child w cnt) as [[sd child'] cnt1]; simpl in *.
    destruct (ascii_dec c' c) as [->|Hcc].
    + intros Hp. rewrite Hc. intros Hd. specialize (IHc p Hp Hd).
      destruct sd; simpl.
      * exfalso. destruct Hdead as [Hd1 _]; [done|].
        destruct p as [|c2 p]; [by destruct w|].
        simpl in IHc. rewrite Hd1, lookup_empty in IHc. by destruct IHc.
      * by rewrite lookup_insert_eq.
    + intros _. destruct sd; simpl.
      * by rewrite lookup_delete_ne.
      * by rewrite lookup_insert_ne.
Qed.

(** X20.  [remove(W)] deletes nodes on the path of [W] only: every path
    that is not a prefix of [W] and exists before the removal exists after
    it. *)
Theorem remove_keeps_paths_off_word t word path :
  String.prefix path word = false ->
  is_Some (descend (root t) path) ->
  is_Some (descend (root (snd (remove t word))) path).
Proof. rewrite remove_root. apply _remove_keeps_off_path. Qed.

Lemma remove_keeps_paths_off_word_witness :
  String.prefix "car" "cat" = false /\
  is_Some (descend (root cat_car_can) "car") /\
  is_Some (descend (root (snd (remove cat_car_can "cat"))) "car").
Proof.
  assert (is_Some (descend (root cat_car_can) "car")) as H by (vm_compute; eauto).
  split; [reflexivity|]. split; [exact H|].
  apply (remove_keeps_paths_off_word cat_car_can "cat" "car"); [reflexivity|exact H].
Defined.

(** X21.  Removing a stored word and inserting it again with the weight it
    had gives back the contents of the trie. *)
Theorem remove_then_insert_restores_contents t word fr :
  weight_of t word = Some fr ->
  forall other,
    weight_of (insert (snd (remove t word)) word fr) other = weight_of t other.
Proof.
  intros Hw other. destruct (decide (other = word)) as [->|Hne].
  - by rewrite weight_of_insert_same.
  - by rewrite weight_of_insert_other, weight_of_remove_other.
Qed.

Lemma remove_then_insert_restores_contents_witness :
  weight_of cat_car_can "can" = Some 3%Q /\
  weight_of (insert (snd (remove cat_car_can "can")) "can" 3%Q) "cat" =
  weight_of cat_car_can "cat".
Proof.
  assert (weight_of cat_car_can "can" = Some 3%Q) as H by reflexivity.
  split; [exact H|].
  apply (remove_then_insert_restores_contents cat_car_can "can" 3%Q H "cat").
Defined.

(** X22.  The answers depend on the contents only: two tries that store the
    same words with the same weights, however they were built, return the
    same [items()] and the same [complete(P, k)] for every [P] and [k]. *)
Theorem answers_depend_on_contents t1 t2 :
  (forall word, weight_of t1 word = weight_of t2 word) ->
  items t1 = items t2 /\
  forall prefix k, complete t1 prefix k = complete t2 prefix k.
Proof.
  intros Heq. split; [by apply items_ext|].
  intros prefix k. apply complete_ext. intros word _. apply Heq.
Qed.

Lemma answers_depend_on_contents_witness :
  let t1 := insert (insert Trie_init "ab" 2%Q) "a" 1%Q in
  let t2 := snd (remove (insert (insert (insert Trie_init "a" 1%Q) "abc" 3%Q)
                                "ab" 2%Q) "abc") in
  (forall word, weight_of t1 word = weight_of t2 word) /\
  items t1 = items t2 /\
  forall prefix k, complete t1 prefix k = complete t2 prefix k.
Proof.
  intros t1 t2.
  assert (forall word, weight_of t1 word = weight_of t2 word) as H.
  { intros word. unfold t1, t2.
    destruct (decide (word = "abc")) as [->|Hne]; [reflexivity|].
    destruct (decide (word = "ab")) as [->|Hab]; [reflexivity|].
    destruct (decide (word = "a")) as [->|Ha]; [reflexivity|].
    rewrite weight_of_remove_other by done.
    by repeat (rewrite weight_of_insert_other by done). }
  split; [exact H|]. apply (answers_depend_on_contents t1 t2 H).
Defined.

(** X23.  Inserting or removing a word that does not start with [P] does
    not change [complete(P, k)], for any [k]. *)
Theorem complete_ignores_other_prefixes t word fr prefix k :
  String.prefix prefix word = false ->
  complete (insert t word fr) prefix k = complete t prefix k /\
  complete (snd (remove t word)) prefix k = complete t prefix k.
Proof.
  intros Hp.
  assert (forall w, String.prefix prefix w = true -> w <> word) as Hne.
  { intros w Hw ->. congruence. }
  split; apply complete_ext; intros w Hw.
  - apply weight_of_insert_other. by apply Hne.
  - apply weight_of_remove_other. by apply Hne.
Qed.

Lemma complete_ignores_other_prefixes_witness :
  String.prefix "ca" "dog" = false /\
  complete (insert cat_car_can "dog" 9%Q) "ca" 2 = complete cat_car_can "ca" 2 /\
  complete (snd (remove cat_car_can "dog")) "ca" 2 = complete cat_car_can "ca" 2.
Proof.
  split; [reflexivity|].
  apply (complete_ignores_other_prefixes cat_car_can "dog" 9%Q "ca" 2).
  reflexivity.
Defined.
